(** * roafteriniter/cache.h: the file-backed shared string cache

    A shallow embedding of [contrib/roafteriniter/cache.h], of [main] of
    [cachereader.c] and of the functions of [roafteriniter.c] that map and
    unmap the caches, and the properties of the append-only string arena.

    Modelling conventions.
    - [uint64_t] and [size_t] values are [Z] with the wrap-around modulo
      [2^64] written out ([u64]).
    - A C string argument is an [option (list byte)]: [None] is the
      null pointer, [Some s] points to the bytes [s] followed by the
      terminating NUL, so [s] itself holds no NUL ([cstring]).
    - The mapping [cache->hdr] points to is the address it is mapped at, the
      two header fields and the bytes that follow the header up to the end
      of the region ([CACHE_DATA]).  A pointer into the mapping is the list
      of bytes from that position to the end of the region; a read or a
      write that leaves the region is undefined in C and is the outcome
      [Fault] here.
    - One process runs at a time: the semaphore is free at every call, and
      [sem_wait], [sem_post] and [msync] leave the mapped bytes as they
      are.  The system calls of [cache_map] and [cache_unmap] are answered
      by an oracle and recorded in a trace. *)

From Stdlib Require Import ZArith List Lia.
From Stdlib.Strings Require Import Byte String.
From stdpp Require Import base list.

Open Scope Z_scope.

(** ** Return codes (cache.h, lines 38-50) *)

Definition CACHE_OP_SUCCESS : Z := 0.
Definition CACHE_OPEN_FAILED : Z := Z.shiftl 1 0.
Definition CACHE_FTRUNC_FAILED : Z := Z.shiftl 1 1.
Definition CACHE_MAP_FAILED : Z := Z.shiftl 1 2.
Definition CACHE_LOCK_INIT_FAILED : Z := Z.shiftl 1 3.
Definition CACHE_INSERTION_SUCCESS : Z := Z.shiftl 1 4.
Definition CACHE_INSERTION_FAILED : Z := Z.shiftl 1 5.
Definition CACHE_CONTAINS_SUCCESS : Z := Z.shiftl 1 6.
Definition CACHE_CONTAINS_FAILED : Z := Z.shiftl 1 7.
Definition CACHE_MUNMAP_FAILED : Z := Z.shiftl 1 8.
Definition CACHE_CLOSE_FAILED : Z := Z.shiftl 1 9.
Definition CACHE_SEMCLOSE_FAILED : Z := Z.shiftl 1 10.
Definition CACHE_EINVAL : Z := Z.shiftl 1 11.

(** ** Machine integers *)

Definition u64 (z : Z) : Z := z mod 2 ^ 64.

(** ** Data model *)

(** [struct cachehdr]: two packed [uint64_t] fields. *)
Module cachehdr.
Record t := mk { length : Z; count : Z }.
End cachehdr.

Definition sizeof_cachehdr : Z := 16.

(** What [cache->hdr] points to: the address of the mapping, the header
    stored at it and the bytes after the header. *)
Record mapping := mk_mapping {
  addr : Z;
  header : cachehdr.t;
  data : list byte
}.

(** [struct cache]. *)
Record cache := mk_cache {
  fd : Z;
  lock : Z;
  size : Z;
  hdr : mapping
}.

Definition hdr_length (c : cache) : Z := cachehdr.length (header (hdr c)).
Definition hdr_count (c : cache) : Z := cachehdr.count (header (hdr c)).

(** [CACHE_DATA(c)]: the bytes after the header; its address is
    the address of the mapping plus [sizeof(struct cachehdr)]. *)
Definition CACHE_DATA (c : cache) : list byte := data (hdr c).
Definition CACHE_DATA_addr (c : cache) : Z := addr (hdr c) + sizeof_cachehdr.

(** [CACHE_ENDPTR(c)] as an address. *)
Definition CACHE_ENDPTR (c : cache) : Z := CACHE_DATA_addr c + hdr_length c.

(** The result of running a piece of the code: a value, an access outside
    the mapped region, or a loop cut off by the fuel of the model. *)
Inductive outcome (A : Type) : Type :=
  | Ret (v : A)
  | Fault
  | OutOfFuel.
Arguments Ret {A} v.
Arguments Fault {A}.
Arguments OutOfFuel {A}.

(** ** C library calls on the mapped bytes *)

Definition is_nul (b : byte) : bool := Byte.eqb b x00.

(** [strlen(str)] of an argument string. *)
Definition strlen (str : list byte) : Z := Z.of_nat (length str).

(** [strlen(ptr)] for [ptr] into the region: [None] when no NUL is met
    before the end of the region. *)
Fixpoint mem_strlen (ptr : list byte) : option nat :=
  match ptr with
  | [] => None
  | b :: ptr' => if is_nul b then Some 0%nat else S <$> mem_strlen ptr'
  end.

(** [strcmp(ptr, item) == 0] for [ptr] into the region and an argument
    string [item]: [None] when the comparison reads past the end of the
    region. *)
Fixpoint mem_streq (ptr item : list byte) : option bool :=
  match ptr, item with
  | [], _ => None
  | b :: _, [] => Some (is_nul b)
  | b :: ptr', c :: item' =>
      if Byte.eqb b c
      then (if is_nul b then Some true else mem_streq ptr' item')
      else Some false
  end.

(** [strncpy(dst, src, strlen(src))] with [dst] at offset [off] of the
    bytes [m]: exactly the bytes of [src] are written, no NUL and no
    padding; [None] when a written byte lies outside [m]. *)
Definition mem_strncpy (m : list byte) (off : Z) (src : list byte)
  : option (list byte) :=
  if (0 <=? off) && (off + strlen src <=? Z.of_nat (length m))
  then Some (take (Z.to_nat off) m ++ src
             ++ drop (Z.to_nat off + length src) m)
  else None.

(** ** Internal operations *)

Definition _cache_sync (c : cache) : cache := c.
Definition _cache_lock (c : cache) : cache := c.
Definition _cache_unlock (c : cache) : cache := c.

(** The [while] loop of [_cache_contains] (lines 88-92): it runs as long
    as the byte at [ptr] is not NUL. *)
Fixpoint _cache_contains_loop (fuel : nat) (ptr item : list byte)
  : outcome Z :=
  match fuel with
  | O => OutOfFuel
  | S fuel' =>
      match ptr with
      | [] => Fault
      | b :: _ =>
          if is_nul b then Ret CACHE_CONTAINS_FAILED
          else match mem_streq ptr item with
               | None => Fault
               | Some true => Ret CACHE_CONTAINS_SUCCESS
               | Some false =>
                   match mem_strlen ptr with
                   | None => Fault
                   | Some n =>
                       _cache_contains_loop fuel' (drop (n + 1) ptr) item
                   end
               end
      end
  end.

(** [_cache_contains] (lines 84-94).  Every turn of the loop moves [ptr]
    forward, so the number of bytes after the header, plus one, is fuel
    enough. *)
Definition _cache_contains (c : cache) (item : list byte)
  : outcome Z * cache :=
  (_cache_contains_loop (S (length (CACHE_DATA c))) (CACHE_DATA c) item, c).

(** [_cache_insert] (lines 97-119). *)
Definition _cache_insert (c : cache) (str : list byte) : outcome Z * cache :=
  let slen := strlen str in
  if slen =? 0 then (Ret CACHE_INSERTION_FAILED, c)
  else
    let ptr := CACHE_ENDPTR c in
    let copyend := u64 (u64 ptr + slen + 1) in
    let copystart := u64 (addr (hdr c)) in
    if (copyend <? copystart) || (u64 (copyend - copystart) >? size c)
    then (Ret CACHE_INSERTION_FAILED, c)
    else
      match mem_strncpy (CACHE_DATA c) (hdr_length c) str with
      | None => (Fault, c)
      | Some data' =>
          let length' := u64 (hdr_length c + (strlen str + 1)) in
          let count' := u64 (hdr_count c + 1) in
          let c' :=
            mk_cache (fd c) (lock c) (size c)
              (mk_mapping (addr (hdr c)) (cachehdr.mk length' count') data')
          in
          (Ret CACHE_INSERTION_SUCCESS, _cache_sync c')
      end.

(** ** Public data operations *)

(** [cache_insert] (lines 229-240). *)
Definition cache_insert (cachep : option cache) (item : option (list byte))
  : outcome Z * option cache :=
  match cachep, item with
  | Some c, Some s =>
      let c := _cache_lock c in
      let '(ret, c) := _cache_insert c s in
      let c := _cache_unlock c in
      (ret, Some c)
  | _, _ => (Ret CACHE_EINVAL, cachep)
  end.

(** [cache_contains] (lines 274-285). *)
Definition cache_contains (cachep : option cache) (item : option (list byte))
  : outcome Z * option cache :=
  match cachep, item with
  | Some c, Some s =>
      let c := _cache_lock c in
      let '(ret, c) := _cache_contains c s in
      let c := _cache_unlock c in
      (ret, Some c)
  | _, _ => (Ret CACHE_EINVAL, cachep)
  end.

(** [cache_notcontains_insert] (lines 299-311).  The insert runs only when
    the scan returned [CACHE_CONTAINS_FAILED]. *)
Definition cache_notcontains_insert (cachep : option cache)
    (item : option (list byte)) : outcome Z * option cache :=
  match cachep, item with
  | Some c, Some s =>
      let c := _cache_lock c in
      let '(ret, c) := _cache_contains c s in
      let '(ret, c) :=
        match ret with
        | Ret v => if v =? CACHE_CONTAINS_FAILED then _cache_insert c s
                   else (ret, c)
        | _ => (ret, c)
        end in
      let c := _cache_unlock c in
      (ret, Some c)
  | _, _ => (Ret CACHE_EINVAL, cachep)
  end.

(** The loop of [cache_debug_traverse] (lines 256-259): the strings handed
    to [printf], in order. *)
Fixpoint cache_debug_traverse_loop (fuel : nat) (ptr : list byte)
  : outcome (list (list byte)) :=
  match fuel with
  | O => OutOfFuel
  | S fuel' =>
      match ptr with
      | [] => Fault
      | b :: _ =>
          if is_nul b then Ret []
          else match mem_strlen ptr with
               | None => Fault
               | Some n =>
                   match cache_debug_traverse_loop fuel' (drop (n + 1) ptr) with
                   | Ret out => Ret (take n ptr :: out)
                   | Fault => Fault
                   | OutOfFuel => OutOfFuel
                   end
               end
      end
  end.

(** [cache_debug_traverse] (lines 247-261). *)
Definition cache_debug_traverse (cachep : option cache)
  : outcome (list (list byte)) :=
  match cachep with
  | None => Ret []
  | Some c =>
      let c := _cache_lock c in
      cache_debug_traverse_loop (S (length (CACHE_DATA c))) (CACHE_DATA c)
  end.

(** ** System calls *)

Inductive syscall : Type :=
  | sys_sem_open (name : string)
  | sys_sem_wait (sem : Z)
  | sys_sem_post (sem : Z)
  | sys_open (fname : string) (creat : bool)
  | sys_ftruncate (fd : Z) (len : Z)
  | sys_mmap (fd : Z) (len : Z)
  | sys_msync (at_addr : Z) (len : Z)
  | sys_munmap (at_addr : Z) (len : Z)
  | sys_close (fd : Z)
  | sys_sem_close (sem : Z).

Definition SEM_FAILED : Z := 0.
Definition MAP_FAILED : Z := u64 (-1).

(** What the system answers to the calls of [cache_map], and what an
    existing backing file holds. *)
Record os := mk_os {
  sem_open_ret : Z;
  open_ret : Z;
  open_creat_ret : Z;
  ftruncate_ret : Z;
  mmap_ret : Z;
  file_header : cachehdr.t;
  file_data : list byte
}.

Definition set_size (c : cache) (sz : Z) : cache :=
  mk_cache (fd c) (lock c) sz (hdr c).
Definition set_lock (c : cache) (l : Z) : cache :=
  mk_cache (fd c) l (size c) (hdr c).
Definition set_fd (c : cache) (f : Z) : cache :=
  mk_cache f (lock c) (size c) (hdr c).
Definition set_hdr (c : cache) (m : mapping) : cache :=
  mk_cache (fd c) (lock c) (size c) m.

(** The result of [_cache_map]: at [MAP_FAILED] nothing is mapped. *)
Definition mapped (a : Z) (h : cachehdr.t) (d : list byte) : mapping :=
  if a =? MAP_FAILED then mk_mapping a (cachehdr.mk 0 0) []
  else mk_mapping a h d.

(** [cache_map] (lines 137-183): the return code, the system calls made,
    in order, and the handle as the call leaves it. *)
Definition cache_map (cachep : option cache) (fname lockname : option string)
    (sz : Z) (o : os) : Z * list syscall * option cache :=
  match cachep, fname, lockname with
  | Some c, Some fname, Some lockname =>
      if (sz =? 0) || negb (sz mod 0x1000 =? 0)
      then (CACHE_EINVAL, [], cachep)
      else
        let c := set_size c sz in
        (* _cache_lock_init *)
        let c := set_lock c (sem_open_ret o) in
        let t := [sys_sem_open lockname] in
        if lock c =? SEM_FAILED then (CACHE_LOCK_INIT_FAILED, t, Some c)
        else
          let t := t ++ [sys_sem_wait (lock c)] in
          let c := set_fd c (open_ret o) in
          let t := t ++ [sys_open fname false] in
          if negb (fd c =? -1) then
            let view := take (Z.to_nat (size c - sizeof_cachehdr)) (file_data o) in
            let c := set_hdr c (mapped (mmap_ret o) (file_header o) view) in
            let t := t ++ [sys_mmap (fd c) (size c)] in
            if addr (hdr c) =? MAP_FAILED
            then (CACHE_MAP_FAILED,
                  t ++ [sys_close (fd c); sys_sem_post (lock c)], Some c)
            else (CACHE_OP_SUCCESS, t ++ [sys_sem_post (lock c)], Some c)
          else
            let c := set_fd c (open_creat_ret o) in
            let t := t ++ [sys_open fname true] in
            if negb (fd c =? -1) then
              let t := t ++ [sys_ftruncate (fd c) (size c)] in
              if ftruncate_ret o =? -1
              then (CACHE_FTRUNC_FAILED,
                    t ++ [sys_close (fd c); sys_sem_post (lock c)], Some c)
              else
                let fresh := replicate (Z.to_nat (size c - sizeof_cachehdr)) x00 in
                let c := set_hdr c (mapped (mmap_ret o) (cachehdr.mk 0 0) fresh) in
                let t := t ++ [sys_mmap (fd c) (size c)] in
                if addr (hdr c) =? MAP_FAILED
                then (CACHE_MAP_FAILED,
                      t ++ [sys_close (fd c); sys_sem_post (lock c)], Some c)
                else
                  (* memset, then the two header fields *)
                  let zeros := replicate (Z.to_nat (size c - sizeof_cachehdr)) x00 in
                  let c := set_hdr c (mk_mapping (addr (hdr c))
                                        (cachehdr.mk 0 0) zeros) in
                  let t := t ++ [sys_msync (addr (hdr c)) (size c)] in
                  (CACHE_OP_SUCCESS, t ++ [sys_sem_post (lock c)], Some c)
            else (CACHE_OPEN_FAILED, t ++ [sys_sem_post (lock c)], Some c)
  | _, _, _ => (CACHE_EINVAL, [], cachep)
  end.

(** [cache_unmap] (lines 199-216): the return code and the system calls
    made, given what [sem_close], [munmap] and [close] answer. *)
Definition cache_unmap (cachep : option cache)
    (sem_close_ret munmap_ret close_ret : Z) : Z * list syscall :=
  match cachep with
  | None => (CACHE_EINVAL, [])
  | Some c =>
      let ret := CACHE_OP_SUCCESS in
      let ret := if sem_close_ret =? -1
                 then Z.lor ret CACHE_SEMCLOSE_FAILED else ret in
      let ret := if munmap_ret =? -1
                 then Z.lor ret CACHE_MUNMAP_FAILED else ret in
      let ret := if close_ret =? -1
                 then Z.lor ret CACHE_CLOSE_FAILED else ret in
      (ret, [sys_sem_close (lock c);
             sys_munmap (addr (hdr c)) (size c);
             sys_close (fd c)])
  end.

(** ** Arguments, the system and reachable stores *)

(** A C string holds no NUL before its terminator. *)
Definition cstring (s : list byte) : Prop := Forall (λ b, b ≠ x00) s.

(** The argument string, with its terminator, and the mapped region are
    two objects of one 64-bit address space, and address 0 belongs to
    neither. *)
Definition arg_ok (c : cache) (s : list byte) : Prop :=
  cstring s ∧ strlen s + 1 + size c < 2 ^ 64.

(** [mmap] answers [MAP_FAILED] or the address of [sz] bytes that lie
    inside the address space, below its last byte. *)
Definition os_ok (o : os) (sz : Z) : Prop :=
  mmap_ret o = MAP_FAILED ∨ (0 < mmap_ret o ∧ mmap_ret o + sz < 2 ^ 64).

(** The strings an operation's outcome adds to the store. *)
Definition appended (r : outcome Z) (s : list byte) : list (list byte) :=
  match r with
  | Ret v => if v =? CACHE_INSERTION_SUCCESS then [s] else []
  | _ => []
  end.

(** [reachable c log]: the handle [c] shows a store obtained from a
    backing file created by [cache_map] through the public operations, and
    [log] lists the strings appended with success, in order. *)
Inductive reachable : cache → list (list byte) → Prop :=
  | reach_create c0 fname lockname sz o t c :
      0 ≤ sz < 2 ^ 64 →
      os_ok o sz →
      open_ret o = -1 →
      cache_map (Some c0) (Some fname) (Some lockname) sz o
        = (CACHE_OP_SUCCESS, t, Some c) →
      reachable c []
  | reach_attach c log c0 fname lockname o t c' :
      reachable c log →
      os_ok o (size c) →
      open_ret o ≠ -1 →
      file_header o = header (hdr c) →
      file_data o = data (hdr c) →
      cache_map (Some c0) (Some fname) (Some lockname) (size c) o
        = (CACHE_OP_SUCCESS, t, Some c') →
      reachable c' log
  | reach_insert c log s r c' :
      reachable c log →
      arg_ok c s →
      cache_insert (Some c) (Some s) = (r, Some c') →
      reachable c' (log ++ appended r s)
  | reach_contains c log s r c' :
      reachable c log →
      arg_ok c s →
      cache_contains (Some c) (Some s) = (r, Some c') →
      reachable c' log
  | reach_notcontains_insert c log s r c' :
      reachable c log →
      arg_ok c s →
      cache_notcontains_insert (Some c) (Some s) = (r, Some c') →
      reachable c' (log ++ appended r s).

(** The bytes of the stored strings, each followed by its NUL. *)
Definition layout (log : list (list byte)) : list byte :=
  concat (map (λ s, s ++ [x00]) log).

(** A stored item is a C string that is not empty. *)
Definition item_ok (s : list byte) : Prop := s ≠ [] ∧ cstring s.

(** The store invariant behind [reachable]. *)
Record cache_inv (c : cache) (log : list (list byte)) : Prop := mk_inv {
  inv_addr : 0 < addr (hdr c) ∧ addr (hdr c) + size c < 2 ^ 64;
  inv_size : Z.of_nat (length (CACHE_DATA c)) = size c - sizeof_cachehdr;
  inv_items : Forall item_ok log;
  inv_length : hdr_length c = Z.of_nat (length (layout log));
  inv_count : hdr_count c = Z.of_nat (length log);
  inv_data : CACHE_DATA c
             = layout log
               ++ replicate (length (CACHE_DATA c) - length (layout log)) x00;
  inv_bound : (length (layout log) <= length (CACHE_DATA c))%nat
}.

(** ** The stored items, as the specification words them *)

(** Each run of bytes up to, not including, a NUL is one item; the scan
    goes on after the NUL and stops at a run of length zero.  [run] holds
    the bytes of the current run. *)
Fixpoint items_from (m : list byte) (run : list byte) : list (list byte) :=
  match m with
  | [] => []
  | b :: m' =>
      if is_nul b
      then match run with
           | [] => []
           | _ => run :: items_from m' []
           end
      else items_from m' (run ++ [b])
  end.

Definition stored_items (m : list byte) : list (list byte) := items_from m [].

(** ** Decidable equality of bytes *)

#[global] Instance byte_eq_decision : EqDecision byte := byte_eq_dec.

(** ** The outcome of an accepted insert *)

(** The handle after an accepted insert. *)
Definition after_insert (c : cache) (s : list byte) : cache :=
  mk_cache (fd c) (lock c) (size c)
    (mk_mapping (addr (hdr c))
       (cachehdr.mk (hdr_length c + strlen s + 1) (hdr_count c + 1))
       (take (Z.to_nat (hdr_length c)) (CACHE_DATA c) ++ s
        ++ drop (Z.to_nat (hdr_length c) + length s) (CACHE_DATA c))).

(** The bytes an insert of [s] needs, counted from the start of the
    region: header, occupied bytes, the string and its terminator. *)
Definition needed (c : cache) (s : list byte) : Z :=
  sizeof_cachehdr + hdr_length c + strlen s + 1.

(** ** A store to run the code on

    The fixture of [cache_test.cc]: a zeroed handle, no backing file yet,
    a region of [0x1000] bytes. *)

Definition zeroed_handle : cache :=
  mk_cache 0 0 0 (mk_mapping 0 (cachehdr.mk 0 0) []).

Definition os_fresh : os :=
  mk_os 0x5000 (-1) 3 0 0x7f0000000000 (cachehdr.mk 0 0) [].

Definition TESTCACHEFILE : string := "/tmp/testcache".
Definition TESTLOCKNAME : string := "/testcachelock".

Definition test_store : cache :=
  match cache_map (Some zeroed_handle) (Some TESTCACHEFILE)
          (Some TESTLOCKNAME) 0x1000 os_fresh with
  | (_, _, Some c) => c
  | _ => zeroed_handle
  end.

Definition bytes_A (n : nat) : list byte := replicate n "A"%byte.
Definition bytes_B (n : nat) : list byte := replicate n "B"%byte.

(** The handle after [cache_insert]. *)
Definition inserted (c : cache) (s : list byte) : cache :=
  match cache_insert (Some c) (Some s) with
  | (_, Some c') => c'
  | _ => c
  end.

Definition AAA : list byte := bytes_A 3.

(** ** The region filled to its last byte *)

(** One string of 4079 bytes and its terminator take the 4080 bytes after
    the header. *)
Definition store_full : cache := inserted test_store (bytes_A 4079).

(** [n] inserts of the same string in a row, and the store of the test
    [InsertFailsLengthExceeded] after its 1020 inserts of ["AAA"]. *)
Fixpoint insert_n (n : nat) (c : cache) (s : list byte) : cache :=
  match n with
  | O => c
  | S n' => insert_n n' (inserted c s) s
  end.

Definition test_full : cache := insert_n 1020 test_store AAA.

(** ** Kinds of system calls in a trace *)

Definition is_sem_wait (e : syscall) : bool :=
  match e with sys_sem_wait _ => true | _ => false end.
Definition is_sem_post (e : syscall) : bool :=
  match e with sys_sem_post _ => true | _ => false end.
Definition is_open (e : syscall) : bool :=
  match e with sys_open _ _ => true | _ => false end.
Definition is_close (e : syscall) : bool :=
  match e with sys_close _ => true | _ => false end.
Definition is_ftruncate (e : syscall) : bool :=
  match e with sys_ftruncate _ _ => true | _ => false end.

(** The arguments [cache_map] accepts. *)
Definition map_args_ok (sz : Z) : Prop := sz ≠ 0 ∧ sz mod 0x1000 = 0.

(** ** cachereader.c *)

(** What [main] writes to [stderr]: the usage line, or the line
    ["cache_map failed with %d"] with its number. *)
Inductive stderr_line : Type :=
  | usage_line
  | map_failed_line (ret : Z).

(** A finished run: the value returned by [main] or handed to [exit], the
    strings printed by the traversal, the lines on [stderr] and the system
    calls of [cache_map] and [cache_unmap]. *)
Record run := mk_run {
  exit_code : Z;
  printed : list (list byte);
  errors : list stderr_line;
  calls : list syscall
}.

(** [ret = cache_map(...) != CACHE_OP_SUCCESS]: the comparison is done
    first, and its truth value is what [ret] receives. *)
Definition failed_flag (code : Z) : Z :=
  if negb (code =? CACHE_OP_SUCCESS) then 1 else 0.

(** [main] of cachereader.c (lines 7-27); [argc] is the length of
    [argv]. *)
Definition cachereader_main (argv : list string) (o : os)
    (sem_close_ret munmap_ret close_ret : Z) : outcome run :=
  let argc := Z.of_nat (length argv) in
  let cache := zeroed_handle in
  if negb (argc =? 3) then Ret (mk_run (-1) [] [usage_line] [])
  else
    let '(code, t, cachep) :=
      cache_map (Some cache) (argv !! 1%nat) (argv !! 2%nat)
        (50 * 0x1000) o in
    let ret := failed_flag code in
    if negb (ret =? 0) then Ret (mk_run (-1) [] [map_failed_line ret] t)
    else
      match cache_debug_traverse cachep with
      | Ret lines =>
          let '(_, t') :=
            cache_unmap cachep sem_close_ret munmap_ret close_ret in
          Ret (mk_run 0 lines [] (t ++ t'))
      | Fault => Fault
      | OutOfFuel => OutOfFuel
      end.

(** ** roafteriniter.c: mapping and unmapping the three caches *)

Definition STAGE1_INT : string := "/tmp/rai_int".
Definition STAGE1_CHK : string := "/tmp/rai_chk".
Definition STAGE2_FINAL : string := "/tmp/rai_final".
Definition STAGE1_PG_COUNT : Z := 30.
Definition STAGE2_PG_COUNT : Z := 60.

(** The static state of the plugin. *)
Record plugin := mk_plugin {
  interesting : cache;
  checked : cache;
  results : cache;
  stage2 : bool
}.

(** A function that may end in [die]: it returns, or [die] is called with
    the number and the source line it prints; [t] holds the system calls
    made so far. *)
Inductive exec (A : Type) : Type :=
  | Returns (a : A) (t : list syscall)
  | Dies (ret line : Z) (t : list syscall).
Arguments Returns {A} a t.
Arguments Dies {A} ret line t.

Definition exec_bind {A B : Type} (x : exec A) (k : A → exec B) : exec B :=
  match x with
  | Dies ret line t => Dies ret line t
  | Returns a t =>
      match k a with
      | Dies ret line t' => Dies ret line (t ++ t')
      | Returns b t' => Returns b (t ++ t')
      end
  end.

(** The statement
    [if ((ret = cache_map(&c, fname, lockname, pages * 0x1000)
          != CACHE_OP_SUCCESS)) die("...", ret, __LINE__);]
    with [line] the line of the [die]. *)
Definition map_or_die (c : cache) (fname lockname : string) (pages : Z)
    (o : os) (line : Z) : exec cache :=
  let '(code, t, cachep) :=
    cache_map (Some c) (Some fname) (Some lockname) (pages * 0x1000) o in
  let ret := failed_flag code in
  if negb (ret =? 0) then Dies ret line t
  else Returns (default c cachep) t.

(** [rai_map_cache] (lines 124-138); the three [os] are what the system
    answers to the map of each file.  [checked] is mapped in stage 1 only
    and [results] in stage 2 only. *)
Definition rai_map_cache (p : plugin) (o_int o_chk o_fin : os)
  : exec plugin :=
  exec_bind
    (map_or_die (interesting p) STAGE1_INT "/int" STAGE1_PG_COUNT o_int 128)
    (λ c_int,
      exec_bind
        (if negb (stage2 p)
         then map_or_die (checked p) STAGE1_CHK "/chk" STAGE1_PG_COUNT
                o_chk 133
         else Returns (checked p) [])
        (λ c_chk,
          exec_bind
            (if stage2 p
             then map_or_die (results p) STAGE2_FINAL "/final"
                    STAGE2_PG_COUNT o_fin 137
             else Returns (results p) [])
            (λ c_fin, Returns (mk_plugin c_int c_chk c_fin (stage2 p)) []))).

(** The answers of [sem_close], [munmap] and [close] to one
    [cache_unmap]. *)
Record release := mk_release {
  rel_sem_close : Z;
  rel_munmap : Z;
  rel_close : Z
}.

(** [rai_callback_finish] (lines 468-473): the system calls it makes. *)
Definition rai_callback_finish (p : plugin) (a_int a_chk a_fin : release)
  : list syscall :=
  let unmap c a :=
    snd (cache_unmap (Some c) (rel_sem_close a) (rel_munmap a) (rel_close a))
  in
  let t := unmap (interesting p) a_int in
  let t := if negb (stage2 p) then t ++ unmap (checked p) a_chk else t in
  let t := if stage2 p then t ++ unmap (results p) a_fin else t in
  t.

(** The descriptor [cache_map] keeps: the one of the plain open, or of
    the creating open when the plain one failed. *)
Definition opened_fd (o : os) : Z :=
  if open_ret o =? -1 then open_creat_ret o else open_ret o.

(** The three releases of [cache_unmap] on what [cache_map] obtained with
    the answers [o] for a region of [sz] bytes. *)
Definition releases_of (o : os) (sz : Z) : list syscall :=
  [sys_sem_close (sem_open_ret o); sys_munmap (mmap_ret o) sz;
   sys_close (opened_fd o)].

(** ** More stores and system answers to run the code on *)

(** The system when [ftruncate] fails on the new file. *)
Definition os_ftruncate_fails : os :=
  mk_os 0x5000 (-1) 3 (-1) 0x7f0000000000 (cachehdr.mk 0 0) [].

(** The system when the backing file exists and holds the region of
    [c]. *)
Definition os_attach (c : cache) : os :=
  mk_os 0x5000 4 (-1) 0 0x7f0000100000 (header (hdr c)) (data (hdr c)).

(** The handle a second [cache_map] returns for the file of [c]. *)
Definition attached (c : cache) : cache :=
  match cache_map (Some zeroed_handle) (Some TESTCACHEFILE)
          (Some TESTLOCKNAME) (size c) (os_attach c) with
  | (_, _, Some c') => c'
  | _ => zeroed_handle
  end.



(** The plugin before [rai_map_cache]: static storage is zeroed. *)
Definition plugin_start (stage2 : bool) : plugin :=
  mk_plugin zeroed_handle zeroed_handle zeroed_handle stage2.

(** The plugin when [rai_map_cache] has returned. *)
Definition plugin_mapped (stage2 : bool) (o_int o_chk o_fin : os) : plugin :=
  match rai_map_cache (plugin_start stage2) o_int o_chk o_fin with
  | Returns p _ => p
  | Dies _ _ _ => plugin_start stage2
  end.

Definition plugin_map_calls (stage2 : bool) (o_int o_chk o_fin : os)
  : list syscall :=
  match rai_map_cache (plugin_start stage2) o_int o_chk o_fin with
  | Returns _ t => t
  | Dies _ _ t => t
  end.

(** * Proofs *)

(** ** Bytes and C strings *)

Lemma is_nul_true (b : byte) : is_nul b = true ↔ b = x00.
Proof.
  unfold is_nul; split; intros H.
  - by apply byte_dec_bl.
  - by apply byte_dec_lb.
Qed.

Lemma is_nul_false (b : byte) : is_nul b = false ↔ b ≠ x00.
Proof.
  rewrite <- is_nul_true. destruct (is_nul b); split; congruence.
Qed.

Lemma byte_eqb_refl (b : byte) : Byte.eqb b b = true.
Proof. by apply byte_dec_lb. Qed.

Lemma byte_eqb_neq (b c : byte) : b ≠ c → Byte.eqb b c = false.
Proof.
  intros H. destruct (Byte.eqb b c) eqn:E; [|done].
  by apply byte_dec_bl in E.
Qed.

Lemma cstring_cons (b : byte) (s : list byte) :
  cstring (b :: s) ↔ b ≠ x00 ∧ cstring s.
Proof. unfold cstring. by rewrite Forall_cons. Qed.

(** Memory either holds no NUL at all or starts with a C string and its
    terminator. *)
Lemma mem_split (m : list byte) :
  cstring m ∨ ∃ s m', m = s ++ x00 :: m' ∧ cstring s.
Proof.
  induction m as [|b m IH].
  - left. constructor.
  - destruct (is_nul b) eqn:Eb.
    + apply is_nul_true in Eb as ->. right. exists [], m. split; [done|constructor].
    + apply is_nul_false in Eb. destruct IH as [IH|(s & m' & -> & Hs)].
      * left. by apply cstring_cons.
      * right. exists (b :: s), m'. split; [done|]. by apply cstring_cons.
Qed.

Lemma mem_strlen_cstring (s m : list byte) :
  cstring s → mem_strlen (s ++ x00 :: m) = Some (length s).
Proof.
  induction s as [|b s IH]; intros Hs; simpl.
  - done.
  - apply cstring_cons in Hs as [Hb Hs].
    apply is_nul_false in Hb. rewrite Hb, (IH Hs). done.
Qed.

Lemma mem_strlen_none (m : list byte) : cstring m → mem_strlen m = None.
Proof.
  induction m as [|b m IH]; intros Hm; simpl; [done|].
  apply cstring_cons in Hm as [Hb Hm].
  apply is_nul_false in Hb. by rewrite Hb, (IH Hm).
Qed.

Lemma mem_streq_same (s m : list byte) :
  cstring s → mem_streq (s ++ x00 :: m) s = Some true.
Proof.
  induction s as [|b s IH]; intros Hs; simpl; [done|].
  apply cstring_cons in Hs as [Hb Hs].
  apply is_nul_false in Hb. by rewrite byte_eqb_refl, Hb, (IH Hs).
Qed.

Lemma mem_streq_diff (s m item : list byte) :
  cstring s → cstring item → s ≠ item →
  mem_streq (s ++ x00 :: m) item = Some false.
Proof.
  revert item. induction s as [|b s IH]; intros item Hs Hi Hne; simpl.
  - destruct item as [|c item]; [done|].
    apply cstring_cons in Hi as [Hc _].
    by rewrite byte_eqb_neq.
  - apply cstring_cons in Hs as [Hb Hs].
    destruct item as [|c item].
    + f_equal. by apply is_nul_false.
    + apply cstring_cons in Hi as [Hc Hi].
      destruct (Byte.eqb b c) eqn:E; [|done].
      apply byte_dec_bl in E as ->.
      apply is_nul_false in Hb. rewrite Hb.
      apply IH; [done..|]. congruence.
Qed.

(** Without a terminator in the region, [strcmp] never reports equality. *)
Lemma mem_streq_unterminated (m item : list byte) :
  cstring m → mem_streq m item ≠ Some true.
Proof.
  revert item. induction m as [|b m IH]; intros item Hm; simpl; [done|].
  apply cstring_cons in Hm as [Hb Hm].
  pose proof Hb as Hb'. apply is_nul_false in Hb'.
  destruct item as [|c item].
  - rewrite Hb'. done.
  - destruct (Byte.eqb b c); [|done]. rewrite Hb'. by apply IH.
Qed.

Lemma items_from_cstring (s m run : list byte) :
  cstring s → run ++ s ≠ [] →
  items_from (s ++ x00 :: m) run = (run ++ s) :: items_from m [].
Proof.
  revert run. induction s as [|b s IH]; intros run Hs Hne; simpl.
  - rewrite app_nil_r in *. destruct run; done.
  - apply cstring_cons in Hs as [Hb Hs].
    apply is_nul_false in Hb. rewrite Hb.
    rewrite IH; [|done|].
    + by rewrite <- app_assoc.
    + rewrite <- app_assoc. done.
Qed.

Lemma items_from_unterminated (m run : list byte) :
  cstring m → items_from m run = [].
Proof.
  revert run. induction m as [|b m IH]; intros run Hm; simpl; [done|].
  apply cstring_cons in Hm as [Hb Hm].
  apply is_nul_false in Hb. rewrite Hb. by apply IH.
Qed.

Lemma stored_items_cons (s m : list byte) :
  cstring s → s ≠ [] →
  stored_items (s ++ x00 :: m) = s :: stored_items m.
Proof. intros. unfold stored_items. by rewrite items_from_cstring. Qed.

Lemma drop_item (s m : list byte) :
  drop (length s + 1) (s ++ x00 :: m) = m.
Proof.
  rewrite drop_app_add'; [|done]. done.
Qed.

(** ** The scan of [_cache_contains] on any memory *)

Lemma contains_loop_step (fuel : nat) (b : byte) (m item : list byte) :
  _cache_contains_loop (S fuel) (b :: m) item
  = if is_nul b then Ret CACHE_CONTAINS_FAILED
    else match mem_streq (b :: m) item with
         | None => Fault
         | Some true => Ret CACHE_CONTAINS_SUCCESS
         | Some false =>
             match mem_strlen (b :: m) with
             | None => Fault
             | Some n => _cache_contains_loop fuel (drop (n + 1) (b :: m)) item
             end
         end.
Proof. reflexivity. Qed.

(** With fuel above the number of bytes left, the loop ends by itself, and
    it reports success exactly for the stored items. *)
Lemma contains_loop_spec (fuel : nat) (m item : list byte) :
  cstring item → (length m < fuel)%nat →
  _cache_contains_loop fuel m item ≠ OutOfFuel
  ∧ (_cache_contains_loop fuel m item = Ret CACHE_CONTAINS_SUCCESS
     ↔ item ∈ stored_items m).
Proof.
  intros Hi. revert m. induction fuel as [|fuel IH]; intros m Hlen; [lia|].
  destruct m as [|b m0]; [simpl|rewrite contains_loop_step].
  { split; [done|]. split; [done|]. unfold stored_items; simpl. by intros ?%elem_of_nil. }
  destruct (is_nul b) eqn:Eb.
  { split; [done|]. unfold stored_items; simpl. rewrite Eb.
    split; [|by intros ?%elem_of_nil].
    intros [=H]. }
  assert (length m0 < fuel)%nat as Hlen' by (simpl in Hlen; lia).
  destruct (mem_split (b :: m0)) as [Hm|(s & m' & Hm & Hs)].
  - unfold stored_items. rewrite (items_from_unterminated _ _ Hm).
    pose proof (mem_streq_unterminated _ item Hm) as Hne.
    rewrite (mem_strlen_none _ Hm).
    destruct (mem_streq (b :: m0) item) as [[]|]; [done|..];
      (split; [done|]; split; [done|by intros ?%elem_of_nil]).
  - assert (s ≠ []) as Hs0.
    { intros ->. simpl in Hm. injection Hm as -> _. done. }
    rewrite Hm. rewrite (stored_items_cons _ _ Hs Hs0).
    destruct (decide (s = item)) as [->|Hne].
    + rewrite (mem_streq_same _ _ Hs). split; [done|].
      split; [intros _; by left|done].
    + rewrite (mem_streq_diff _ _ _ Hs Hi Hne).
      rewrite (mem_strlen_cstring _ _ Hs), drop_item.
      assert (length m' < fuel)%nat as Hl.
      { apply (f_equal length) in Hm. rewrite length_app in Hm.
        simpl in Hm. lia. }
      destruct (IH m' Hl) as [H1 H2]. split; [done|].
      rewrite H2, elem_of_cons. split; [by right|].
      intros [?|?]; [by subst|done].
Qed.

(** ** The layout of a store *)

Lemma layout_nil : layout [] = [].
Proof. done. Qed.

Lemma layout_cons (s : list byte) (log : list (list byte)) :
  layout (s :: log) = s ++ x00 :: layout log.
Proof. unfold layout; simpl. by rewrite <- app_assoc. Qed.

Lemma layout_snoc (log : list (list byte)) (s : list byte) :
  layout (log ++ [s]) = layout log ++ s ++ [x00].
Proof.
  unfold layout. rewrite map_app, concat_app. simpl. by rewrite app_nil_r.
Qed.

Ltac list_len H :=
  repeat (progress (simpl in H; rewrite ?length_app, ?length_replicate in H));
  repeat (progress (simpl; rewrite ?length_app, ?length_replicate));
  lia.

(** Every item takes two bytes or more. *)
Lemma layout_length_items (log : list (list byte)) :
  Forall item_ok log → (2 * length log <= length (layout log))%nat.
Proof.
  induction 1 as [|s log [Hs _] _ IH]; [simpl; lia|].
  rewrite layout_cons, length_app. simpl.
  destruct s; [done|]. simpl. lia.
Qed.

Lemma stored_items_layout (log : list (list byte)) (k : nat) :
  Forall item_ok log → stored_items (layout log ++ replicate k x00) = log.
Proof.
  induction 1 as [|s log [Hs0 Hs] _ IH].
  - rewrite layout_nil. simpl. destruct k; done.
  - rewrite layout_cons, <- app_assoc. simpl.
    rewrite stored_items_cons by done. by rewrite IH.
Qed.

(** A query that is not stored is answered at the byte after the last
    item, when the region has one. *)
Lemma contains_loop_miss (log : list (list byte)) (k fuel : nat)
    (item : list byte) :
  Forall item_ok log → cstring item → item ∉ log →
  (length (layout log ++ replicate (S k) x00) < fuel)%nat →
  _cache_contains_loop fuel (layout log ++ replicate (S k) x00) item
  = Ret CACHE_CONTAINS_FAILED.
Proof.
  intros Hlog Hi. revert fuel.
  induction Hlog as [|s log [Hs0 Hs] _ IH]; intros fuel Hnot Hlen.
  - destruct fuel; [lia|]. done.
  - destruct fuel as [|fuel]; [lia|].
    apply not_elem_of_cons in Hnot as [Hne Hnot].
    rewrite layout_cons, <- app_assoc in *.
    destruct s as [|b s]; [done|].
    change ((b :: s) ++ (x00 :: layout log) ++ replicate (S k) x00)
      with (b :: (s ++ x00 :: layout log ++ replicate (S k) x00)).
    rewrite contains_loop_step.
    apply cstring_cons in Hs as Hs'. destruct Hs' as [Hb _].
    apply is_nul_false in Hb. rewrite Hb.
    change (b :: (s ++ x00 :: layout log ++ replicate (S k) x00))
      with ((b :: s) ++ x00 :: layout log ++ replicate (S k) x00).
    rewrite mem_streq_diff by done.
    rewrite mem_strlen_cstring by done. rewrite drop_item.
    apply IH; [done|]. list_len Hlen.
Qed.

(** When the items fill the region to its last byte, the same scan leaves
    the region. *)
Lemma contains_loop_full (log : list (list byte)) (fuel : nat)
    (item : list byte) :
  Forall item_ok log → cstring item → item ∉ log →
  (length (layout log) < fuel)%nat →
  _cache_contains_loop fuel (layout log) item = Fault.
Proof.
  intros Hlog Hi. revert fuel.
  induction Hlog as [|s log [Hs0 Hs] _ IH]; intros fuel Hnot Hlen.
  - destruct fuel; [lia|]. done.
  - destruct fuel as [|fuel]; [lia|].
    apply not_elem_of_cons in Hnot as [Hne Hnot].
    rewrite layout_cons in *.
    destruct s as [|b s]; [done|].
    change ((b :: s) ++ x00 :: layout log)
      with (b :: (s ++ x00 :: layout log)).
    rewrite contains_loop_step.
    apply cstring_cons in Hs as Hs'. destruct Hs' as [Hb _].
    apply is_nul_false in Hb. rewrite Hb.
    change (b :: (s ++ x00 :: layout log))
      with ((b :: s) ++ x00 :: layout log).
    rewrite mem_streq_diff by done.
    rewrite mem_strlen_cstring by done. rewrite drop_item.
    apply IH; [done|]. list_len Hlen.
Qed.

(** ** Machine arithmetic *)

Lemma u64_small (z : Z) : 0 ≤ z < 2 ^ 64 → u64 z = z.
Proof. intros. unfold u64. by apply Z.mod_small. Qed.

Lemma u64_wrap (z : Z) : 2 ^ 64 ≤ z < 2 * 2 ^ 64 → u64 z = z - 2 ^ 64.
Proof.
  intros. unfold u64. symmetry.
  apply (Z.mod_unique z (2 ^ 64) 1); lia.
Qed.

Lemma strlen_nil (s : list byte) : strlen s = 0 ↔ s = [].
Proof.
  unfold strlen. destruct s; simpl; split; intros; try done; lia.
Qed.

Lemma strlen_nonneg (s : list byte) : 0 ≤ strlen s.
Proof. unfold strlen. lia. Qed.

(** ** [_cache_insert] on a store that satisfies the invariant *)

Lemma inv_length_bound (c : cache) (log : list (list byte)) :
  cache_inv c log → 0 ≤ hdr_length c ≤ size c - sizeof_cachehdr.
Proof.
  intros [_ Hsz _ Hlen _ _ Hb]. rewrite Hlen, <- Hsz. lia.
Qed.

Lemma insert_rejected (c : cache) (log : list (list byte)) (s : list byte) :
  cache_inv c log → arg_ok c s →
  s = [] ∨ size c < needed c s →
  _cache_insert c s = (Ret CACHE_INSERTION_FAILED, c).
Proof.
  intros Hinv [_ Harg] Hrej. unfold _cache_insert.
  destruct (Z.eqb_spec (strlen s) 0) as [|Hs]; [done|].
  destruct Hrej as [->|Hrej]; [done|].
  pose proof (inv_length_bound _ _ Hinv) as HL.
  destruct Hinv as [[Ha1 Ha2] _ _ _ _ _ _].
  pose proof (strlen_nonneg s) as Hs0.
  unfold needed, sizeof_cachehdr in *.
  unfold CACHE_ENDPTR, CACHE_DATA_addr, sizeof_cachehdr.
  rewrite (u64_small (addr (hdr c))) by lia.
  rewrite (u64_small (addr (hdr c) + 16 + hdr_length c)) by lia.
  destruct (Z.lt_ge_cases (addr (hdr c) + 16 + hdr_length c + strlen s + 1)
              (2 ^ 64)) as [Hlt|Hge].
  - rewrite (u64_small (_ + strlen s + 1)) by lia.
    destruct (Z.ltb_spec (addr (hdr c) + 16 + hdr_length c + strlen s + 1)
                (addr (hdr c))); [done|]. simpl.
    rewrite u64_small by lia.
    destruct (Z.gtb_spec (addr (hdr c) + 16 + hdr_length c + strlen s + 1
                          - addr (hdr c)) (size c)); [done|lia].
  - rewrite (u64_wrap (_ + strlen s + 1)) by lia.
    destruct (Z.ltb_spec (addr (hdr c) + 16 + hdr_length c + strlen s + 1
                          - 2 ^ 64) (addr (hdr c))); [done|lia].
Qed.

Lemma insert_accepted (c : cache) (log : list (list byte)) (s : list byte) :
  cache_inv c log → arg_ok c s →
  s ≠ [] → needed c s ≤ size c →
  _cache_insert c s = (Ret CACHE_INSERTION_SUCCESS, after_insert c s).
Proof.
  intros Hinv [_ Harg] Hne Hfit. unfold _cache_insert.
  destruct (Z.eqb_spec (strlen s) 0) as [E|_]; [by apply strlen_nil in E|].
  pose proof (inv_length_bound _ _ Hinv) as HL.
  pose proof (layout_length_items _ (inv_items _ _ Hinv)) as Hcnt.
  destruct Hinv as [[Ha1 Ha2] Hsz _ Hlen Hc _ Hb].
  pose proof (strlen_nonneg s) as Hs0.
  unfold needed, sizeof_cachehdr in *.
  unfold CACHE_ENDPTR, CACHE_DATA_addr, sizeof_cachehdr.
  rewrite (u64_small (addr (hdr c))) by lia.
  rewrite (u64_small (addr (hdr c) + 16 + hdr_length c)) by lia.
  rewrite (u64_small (_ + strlen s + 1)) by lia.
  destruct (Z.ltb_spec (addr (hdr c) + 16 + hdr_length c + strlen s + 1)
              (addr (hdr c))); [lia|]. simpl.
  rewrite u64_small by lia.
  destruct (Z.gtb_spec (addr (hdr c) + 16 + hdr_length c + strlen s + 1
                        - addr (hdr c)) (size c)); [lia|].
  unfold mem_strncpy.
  destruct (Z.leb_spec 0 (hdr_length c)); [|lia].
  destruct (Z.leb_spec (hdr_length c + strlen s)
              (Z.of_nat (length (CACHE_DATA c)))); [|lia].
  simpl. unfold _cache_sync, after_insert.
  rewrite (u64_small (hdr_length c + (strlen s + 1))) by lia.
  rewrite (u64_small (hdr_count c + 1)) by lia.
  replace (hdr_length c + (strlen s + 1)) with (hdr_length c + strlen s + 1)
    by lia.
  reflexivity.
Qed.

Lemma inv_data_split (c : cache) (log : list (list byte)) :
  cache_inv c log →
  ∃ k : nat, CACHE_DATA c = layout log ++ replicate k x00
             ∧ Z.of_nat k = size c - sizeof_cachehdr - hdr_length c.
Proof.
  intros [_ Hsz _ Hlen _ Hd Hb].
  exists (length (CACHE_DATA c) - length (layout log))%nat.
  split; [done|]. rewrite Hlen, <- Hsz. lia.
Qed.

Lemma after_insert_data (c : cache) (log : list (list byte)) (s : list byte)
    (k : nat) :
  hdr_length c = Z.of_nat (length (layout log)) →
  CACHE_DATA c = layout log ++ replicate (length s + S k) x00 →
  CACHE_DATA (after_insert c s) = layout (log ++ [s]) ++ replicate k x00.
Proof.
  intros Hlen Hd. unfold after_insert, CACHE_DATA at 1. simpl.
  rewrite Hd, Hlen, Nat2Z.id.
  rewrite take_app_length.
  rewrite drop_app_add' by done.
  rewrite drop_replicate.
  replace (length s + S k - length s)%nat with (S k) by lia.
  rewrite layout_snoc. simpl. by rewrite <- !app_assoc.
Qed.

Lemma after_insert_inv (c : cache) (log : list (list byte)) (s : list byte) :
  cache_inv c log → arg_ok c s →
  s ≠ [] → needed c s ≤ size c →
  cache_inv (after_insert c s) (log ++ [s]).
Proof.
  intros Hinv [Hcs _] Hne Hfit.
  destruct (inv_data_split _ _ Hinv) as (k & Hd & Hk).
  destruct Hinv as [Ha Hsz Hit Hlen Hc _ Hb].
  unfold needed, strlen in Hfit.
  assert (∃ k', k = (length s + S k')%nat) as [k' ->].
  { exists (k - length s - 1)%nat. lia. }
  pose proof (after_insert_data _ _ _ _ Hlen Hd) as Hd'.
  assert (length (CACHE_DATA (after_insert c s)) = length (CACHE_DATA c))
    as Hlen'.
  { rewrite Hd', Hd, layout_snoc. list_len Hd. }
  split.
  - done.
  - rewrite Hlen'. done.
  - apply Forall_app. split; [done|]. by repeat constructor.
  - unfold hdr_length at 1, after_insert; simpl.
    rewrite Hlen, layout_snoc. unfold strlen. list_len Hd.
  - unfold hdr_count at 1, after_insert; simpl.
    rewrite Hc, length_app. simpl. lia.
  - rewrite Hd' at 1. f_equal. f_equal.
    rewrite Hlen', Hd, layout_snoc. list_len Hd.
  - rewrite Hlen', Hd, layout_snoc. list_len Hd.
Qed.

(** ** [_cache_contains] on a store that satisfies the invariant *)

Lemma contains_stored (c : cache) (log : list (list byte)) (item : list byte) :
  cache_inv c log → cstring item → item ∈ log →
  _cache_contains c item = (Ret CACHE_CONTAINS_SUCCESS, c).
Proof.
  intros Hinv Hi Hin. unfold _cache_contains. f_equal.
  apply contains_loop_spec; [done|lia|].
  rewrite (inv_data _ _ Hinv).
  by rewrite (stored_items_layout _ _ (inv_items _ _ Hinv)).
Qed.

Lemma contains_absent (c : cache) (log : list (list byte)) (item : list byte) :
  cache_inv c log → cstring item → item ∉ log →
  hdr_length c < size c - sizeof_cachehdr →
  _cache_contains c item = (Ret CACHE_CONTAINS_FAILED, c).
Proof.
  intros Hinv Hi Hin Hroom. unfold _cache_contains. f_equal.
  destruct (inv_data_split _ _ Hinv) as (k & Hd & Hk).
  destruct k as [|k]; [lia|].
  generalize (Nat.lt_succ_diag_r (length (CACHE_DATA c))).
  rewrite Hd. apply contains_loop_miss; [|done..].
  apply (inv_items _ _ Hinv).
Qed.

Lemma contains_absent_full (c : cache) (log : list (list byte))
    (item : list byte) :
  cache_inv c log → cstring item → item ∉ log →
  hdr_length c = size c - sizeof_cachehdr →
  _cache_contains c item = (Fault, c).
Proof.
  intros Hinv Hi Hin Hfull. unfold _cache_contains. f_equal.
  destruct (inv_data_split _ _ Hinv) as (k & Hd & Hk).
  destruct k as [|k]; [|lia].
  generalize (Nat.lt_succ_diag_r (length (CACHE_DATA c))).
  rewrite Hd. change (replicate 0 x00) with (@nil byte). rewrite app_nil_r.
  apply contains_loop_full; [|done..].
  apply (inv_items _ _ Hinv).
Qed.

(** ** [cache_map] *)

Lemma cache_map_create_inv (c0 c : cache) (fname lockname : string)
    (sz : Z) (o : os) (t : list syscall) :
  0 ≤ sz < 2 ^ 64 → os_ok o sz → open_ret o = -1 →
  cache_map (Some c0) (Some fname) (Some lockname) sz o
    = (CACHE_OP_SUCCESS, t, Some c) →
  cache_inv c [] ∧ size c = sz.
Proof.
  intros Hsz Hos Hopen. unfold cache_map.
  destruct (Z.eqb_spec sz 0) as [|Hnz]; [intros [=]|].
  destruct (Z.eqb_spec (sz mod 4096) 0) as [Hmod|]; [|intros [=]].
  simpl. destruct (sem_open_ret o =? SEM_FAILED); [intros [=]|].
  rewrite Hopen. simpl.
  destruct (open_creat_ret o =? -1); [intros [=]|]. simpl.
  destruct (ftruncate_ret o =? -1); [intros [=]|].
  unfold mapped.
  destruct (Z.eqb_spec (mmap_ret o) MAP_FAILED) as [E|Hmap]; simpl.
  { rewrite E. simpl. intros [=]. }
  destruct (Z.eqb_spec (mmap_ret o) MAP_FAILED) as [E|_]; [done|].
  intros [= _ <-]. split; [|done].
  destruct Hos as [?|Hos]; [done|].
  assert (4096 ≤ sz) as Hbig.
  { pose proof (Z.div_mod sz 4096). unfold sizeof_cachehdr. lia. }
  split; simpl; unfold CACHE_DATA, hdr_length, hdr_count; simpl;
    rewrite ?length_replicate; unfold sizeof_cachehdr in *.
  - done.
  - lia.
  - constructor.
  - done.
  - done.
  - f_equal. lia.
  - lia.
Qed.

Lemma cache_map_attach_inv (c c0 c' : cache) (log : list (list byte))
    (fname lockname : string) (o : os) (t : list syscall) :
  cache_inv c log → os_ok o (size c) → open_ret o ≠ -1 →
  file_header o = header (hdr c) → file_data o = data (hdr c) →
  cache_map (Some c0) (Some fname) (Some lockname) (size c) o
    = (CACHE_OP_SUCCESS, t, Some c') →
  cache_inv c' log ∧ size c' = size c.
Proof.
  intros Hinv Hos Hopen Hfh Hfd. unfold cache_map.
  destruct ((size c =? 0) || negb (size c mod 4096 =? 0)); [intros [=]|].
  simpl. destruct (sem_open_ret o =? SEM_FAILED); [intros [=]|].
  destruct (Z.eqb_spec (open_ret o) (-1)) as [|_]; [done|]. simpl.
  unfold mapped.
  destruct (Z.eqb_spec (mmap_ret o) MAP_FAILED) as [E|Hmap]; simpl.
  { rewrite E. simpl. intros [=]. }
  destruct (Z.eqb_spec (mmap_ret o) MAP_FAILED) as [E|_]; [done|].
  intros [= _ <-]. split; [|done].
  destruct Hos as [?|Hos]; [done|].
  destruct Hinv as [Ha Hsz Hit Hlen Hc Hd Hb].
  unfold CACHE_DATA, hdr_length, hdr_count in *.
  assert (take (Z.to_nat (size c - sizeof_cachehdr)) (file_data o)
          = data (hdr c)) as Htake.
  { rewrite Hfd. apply take_ge. lia. }
  split; unfold CACHE_DATA, hdr_length, hdr_count; simpl;
    rewrite ?Htake, ?Hfh; done.
Qed.

(** ** The public operations on a store that satisfies the invariant *)

Lemma cache_insert_spec (c : cache) (log : list (list byte)) (s : list byte) :
  cache_inv c log → arg_ok c s →
  cache_insert (Some c) (Some s)
  = if decide (s ≠ [] ∧ needed c s ≤ size c)
    then (Ret CACHE_INSERTION_SUCCESS, Some (after_insert c s))
    else (Ret CACHE_INSERTION_FAILED, Some c).
Proof.
  intros Hinv Harg. unfold cache_insert, _cache_lock, _cache_unlock.
  destruct (decide _) as [[Hne Hfit]|Hno].
  - by rewrite (insert_accepted _ _ _ Hinv Harg Hne Hfit).
  - rewrite (insert_rejected _ _ _ Hinv Harg); [done|].
    destruct (decide (s = [])); [by left|right]. 
    destruct (Z.lt_ge_cases (size c) (needed c s)); [done|].
    exfalso. apply Hno. split; [done|lia].
Qed.

Lemma cache_contains_spec (c : cache) (log : list (list byte))
    (s : list byte) :
  cache_inv c log → cstring s →
  cache_contains (Some c) (Some s)
  = if decide (s ∈ log) then (Ret CACHE_CONTAINS_SUCCESS, Some c)
    else if decide (hdr_length c = size c - sizeof_cachehdr)
         then (Fault, Some c)
         else (Ret CACHE_CONTAINS_FAILED, Some c).
Proof.
  intros Hinv Hs. unfold cache_contains, _cache_lock, _cache_unlock.
  destruct (decide (s ∈ log)) as [Hin|Hin].
  - by rewrite (contains_stored _ _ _ Hinv Hs Hin).
  - destruct (decide _) as [Hfull|Hroom].
    + by rewrite (contains_absent_full _ _ _ Hinv Hs Hin Hfull).
    + rewrite (contains_absent _ _ _ Hinv Hs Hin); [done|].
      pose proof (inv_length_bound _ _ Hinv). lia.
Qed.

Lemma cache_notcontains_insert_spec (c : cache) (log : list (list byte))
    (s : list byte) :
  cache_inv c log → arg_ok c s →
  cache_notcontains_insert (Some c) (Some s)
  = if decide (s ∈ log) then (Ret CACHE_CONTAINS_SUCCESS, Some c)
    else if decide (hdr_length c = size c - sizeof_cachehdr)
         then (Fault, Some c)
         else cache_insert (Some c) (Some s).
Proof.
  intros Hinv Harg. pose proof Harg as [Hs _].
  unfold cache_notcontains_insert, cache_insert, _cache_lock, _cache_unlock.
  destruct (decide (s ∈ log)) as [Hin|Hin].
  - by rewrite (contains_stored _ _ _ Hinv Hs Hin).
  - destruct (decide _) as [Hfull|Hroom].
    + by rewrite (contains_absent_full _ _ _ Hinv Hs Hin Hfull).
    + rewrite (contains_absent _ _ _ Hinv Hs Hin); [done|].
      pose proof (inv_length_bound _ _ Hinv). lia.
Qed.

(** ** Every reachable store satisfies the invariant *)

Lemma insert_step_inv (c c' : cache) (log : list (list byte))
    (s : list byte) (r : outcome Z) :
  cache_inv c log → arg_ok c s →
  cache_insert (Some c) (Some s) = (r, Some c') →
  cache_inv c' (log ++ appended r s) ∧ size c' = size c.
Proof.
  intros Hinv Harg. rewrite (cache_insert_spec _ _ _ Hinv Harg).
  destruct (decide _) as [[Hne Hfit]|_]; intros [= <- <-].
  - split; [|done]. by apply after_insert_inv.
  - simpl. by rewrite app_nil_r.
Qed.

Theorem reachable_inv (c : cache) (log : list (list byte)) :
  reachable c log → cache_inv c log.
Proof.
  induction 1 as
    [c0 fname lockname sz o t c Hsz Hos Hopen Hmap
    |c log c0 fname lockname o t c' _ IH Hos Hopen Hfh Hfd Hmap
    |c log s r c' _ IH Harg Hop
    |c log s r c' _ IH Harg Hop
    |c log s r c' _ IH Harg Hop].
  - by apply (cache_map_create_inv _ _ _ _ _ _ _ Hsz Hos Hopen Hmap).
  - by apply (cache_map_attach_inv _ _ _ _ _ _ _ _ IH Hos Hopen Hfh Hfd Hmap).
  - by apply (insert_step_inv _ _ _ _ _ IH Harg Hop).
  - destruct Harg as [Hs _].
    rewrite (cache_contains_spec _ _ _ IH Hs) in Hop.
    repeat case_decide; by injection Hop as _ <-.
  - rewrite (cache_notcontains_insert_spec _ _ _ IH Harg) in Hop.
    destruct (decide (s ∈ log)).
    { injection Hop as <- <-. simpl. by rewrite app_nil_r. }
    destruct (decide _).
    { injection Hop as <- <-. simpl. by rewrite app_nil_r. }
    by apply (insert_step_inv _ _ _ _ _ IH Harg Hop).
Qed.

(** ** The test stores are reachable *)

Lemma test_store_reachable : reachable test_store [].
Proof.
  apply (reach_create zeroed_handle TESTCACHEFILE TESTLOCKNAME 0x1000
           os_fresh
           (snd (fst (cache_map (Some zeroed_handle) (Some TESTCACHEFILE)
                        (Some TESTLOCKNAME) 0x1000 os_fresh)))).
  - lia.
  - right. vm_compute. done.
  - done.
  - reflexivity.
Defined.

Lemma cstring_replicate (n : nat) (b : byte) :
  b ≠ x00 → cstring (replicate n b).
Proof. intros Hb. unfold cstring. by apply Forall_replicate. Qed.

Lemma arg_ok_test (c : cache) (n : nat) (b : byte) :
  b ≠ x00 → Z.of_nat n + 1 + size c < 2 ^ 64 → arg_ok c (replicate n b).
Proof.
  intros Hb Hn. split; [by apply cstring_replicate|].
  unfold strlen. by rewrite length_replicate.
Defined.

Lemma store_AAA_reachable : reachable (inserted test_store AAA) [AAA].
Proof.
  apply (reach_insert test_store [] AAA (Ret CACHE_INSERTION_SUCCESS)).
  - apply test_store_reachable.
  - apply arg_ok_test; [done|vm_compute; done].
  - vm_compute. reflexivity.
Defined.

Lemma store_full_reachable : reachable store_full [bytes_A 4079].
Proof.
  apply (reach_insert test_store [] (bytes_A 4079)
           (Ret CACHE_INSERTION_SUCCESS)).
  - apply test_store_reachable.
  - apply arg_ok_test; [done|vm_compute; done].
  - vm_compute. reflexivity.
Qed.

Lemma insert_n_reachable (n : nat) (c : cache) (log : list (list byte))
    (s : list byte) :
  reachable c log → arg_ok c s → ∃ log', reachable (insert_n n c s) log'.
Proof.
  revert c log. induction n as [|n IH]; intros c log Hreach Harg; simpl.
  - by exists log.
  - destruct (cache_insert (Some c) (Some s)) as [r oc] eqn:Hins.
    pose proof (reachable_inv _ _ Hreach) as Hinv.
    assert (oc = Some (inserted c s)) as ->.
    { unfold inserted. rewrite Hins.
      rewrite (cache_insert_spec _ _ _ Hinv Harg) in Hins.
      destruct (decide _); by injection Hins as _ <-. }
    destruct (insert_step_inv _ _ _ _ _ Hinv Harg Hins) as [_ Hsz].
    apply (IH _ (log ++ appended r s)).
    + by apply (reach_insert c log s r).
    + destruct Harg as [Hs Hlen]. split; [done|]. by rewrite Hsz.
Qed.

(** The bytes after the header, and the zeros that follow the items. *)
Lemma zero_fill (c : cache) (log : list (list byte)) :
  reachable c log →
  Z.of_nat (length (CACHE_DATA c)) = size c - sizeof_cachehdr
  ∧ (∀ i : nat, hdr_length c ≤ Z.of_nat i < size c - sizeof_cachehdr →
                CACHE_DATA c !! i = Some x00).
Proof.
  intros Hinv%reachable_inv.
  destruct (inv_data_split _ _ Hinv) as (k & Hd & Hk).
  destruct Hinv as [_ Hsz _ Hlen Hc _ _].
  split; [done|].
  intros i Hi. rewrite Hd.
  rewrite lookup_app_r by lia.
  apply lookup_replicate_2. lia.
Qed.

(** ** What an accepted insert writes *)

Lemma insert_success_inv (c c' : cache) (log : list (list byte))
    (s : list byte) :
  cache_inv c log → arg_ok c s →
  _cache_insert c s = (Ret CACHE_INSERTION_SUCCESS, c') →
  s ≠ [] ∧ needed c s ≤ size c ∧ c' = after_insert c s.
Proof.
  intros Hinv Harg Hins.
  destruct (decide (s = [])) as [->|Hne].
  { rewrite (insert_rejected _ _ _ Hinv Harg) in Hins by (by left). done. }
  destruct (Z.lt_ge_cases (size c) (needed c s)) as [Hlt|Hge].
  { rewrite (insert_rejected _ _ _ Hinv Harg) in Hins by (by right). done. }
  rewrite (insert_accepted _ _ _ Hinv Harg Hne) in Hins by lia.
  injection Hins as <-. repeat split; [done|lia].
Qed.

Section patch.
Variables (m src : list byte) (off : nat).
Hypothesis Hfit : (off + length src <= length m)%nat.

Lemma patch_inside (i : nat) :
  (i < length src)%nat →
  (take off m ++ src ++ drop (off + length src) m) !! (off + i)%nat
  = src !! i.
Proof using Hfit.
  intros Hi.
  rewrite lookup_app_r; rewrite length_take_le by lia; [|lia].
  replace (off + i - off)%nat with i by lia.
  by rewrite lookup_app_l.
Qed.

Lemma patch_outside (j : nat) :
  (j < off ∨ off + length src <= j)%nat →
  (take off m ++ src ++ drop (off + length src) m) !! j = m !! j.
Proof using Hfit.
  intros [Hj|Hj].
  - rewrite lookup_app_l by (rewrite length_take_le; lia).
    by apply lookup_take_lt.
  - rewrite lookup_app_r; rewrite length_take_le by lia; [|lia].
    rewrite lookup_app_r by lia.
    rewrite lookup_drop. f_equal. lia.
Qed.
End patch.

(** ** The results of the scan, and the traversal *)

Lemma contains_loop_codes (fuel : nat) (m item : list byte) (v : Z) :
  _cache_contains_loop fuel m item = Ret v →
  v = CACHE_CONTAINS_SUCCESS ∨ v = CACHE_CONTAINS_FAILED.
Proof.
  revert m. induction fuel as [|fuel IH]; intros m; [done|].
  destruct m as [|b m]; [done|]. rewrite contains_loop_step.
  destruct (is_nul b); [intros [= <-]; by right|].
  destruct (mem_streq (b :: m) item) as [[]|]; [intros [= <-]; by left| |done].
  destruct (mem_strlen (b :: m)); [apply IH|done].
Qed.

Lemma traverse_loop_step (fuel : nat) (b : byte) (m : list byte) :
  cache_debug_traverse_loop (S fuel) (b :: m)
  = if is_nul b then Ret []
    else match mem_strlen (b :: m) with
         | None => Fault
         | Some n =>
             match cache_debug_traverse_loop fuel (drop (n + 1) (b :: m)) with
             | Ret out => Ret (take n (b :: m) :: out)
             | Fault => Fault
             | OutOfFuel => OutOfFuel
             end
         end.
Proof. reflexivity. Qed.

(** The traversal prints the stored strings when a byte is left after
    them, and leaves the region when none is. *)
Lemma traverse_loop_layout (log : list (list byte)) (tail : list byte)
    (fuel : nat) :
  Forall item_ok log →
  (length (layout log ++ tail) < fuel)%nat →
  cache_debug_traverse_loop fuel (layout log ++ tail)
  = match tail with
    | [] => Fault
    | b :: _ => if is_nul b then Ret log
                else cache_debug_traverse_loop fuel (layout log ++ tail)
    end.
Proof.
  intros Hlog. revert fuel.
  induction Hlog as [|s log [Hs0 Hs] _ IH]; intros fuel Hlen.
  - rewrite layout_nil. simpl. destruct fuel as [|fuel]; [simpl in Hlen; lia|].
    destruct tail as [|b tail]; [done|].
    destruct (is_nul b) eqn:Eb; [by rewrite traverse_loop_step, Eb|done].
  - destruct tail as [|b' tail].
    + destruct fuel as [|fuel]; [lia|].
      rewrite app_nil_r in *. rewrite layout_cons in *.
      destruct s as [|b s]; [done|].
      change ((b :: s) ++ x00 :: layout log)
        with (b :: (s ++ x00 :: layout log)).
      rewrite traverse_loop_step.
      apply cstring_cons in Hs as Hs'. destruct Hs' as [Hb _].
      apply is_nul_false in Hb. rewrite Hb.
      change (b :: (s ++ x00 :: layout log))
        with ((b :: s) ++ x00 :: layout log).
      rewrite mem_strlen_cstring by done. rewrite drop_item.
      rewrite IH by list_len Hlen. done.
    + destruct (is_nul b') eqn:Eb'; [|done].
      destruct fuel as [|fuel]; [lia|].
      rewrite layout_cons, <- app_assoc in *.
      destruct s as [|b s]; [done|].
      change ((b :: s) ++ (x00 :: layout log) ++ b' :: tail)
        with (b :: (s ++ x00 :: layout log ++ b' :: tail)).
      rewrite traverse_loop_step.
      apply cstring_cons in Hs as Hs'. destruct Hs' as [Hb _].
      apply is_nul_false in Hb. rewrite Hb.
      change (b :: (s ++ x00 :: layout log ++ b' :: tail))
        with ((b :: s) ++ x00 :: layout log ++ b' :: tail).
      rewrite mem_strlen_cstring by done. rewrite drop_item.
      rewrite IH by list_len Hlen.
      by rewrite take_app_length.
Qed.

Lemma debug_traverse_spec (c : cache) (log : list (list byte)) :
  cache_inv c log →
  cache_debug_traverse (Some c)
  = if decide (hdr_length c = size c - sizeof_cachehdr) then Fault
    else Ret log.
Proof.
  intros Hinv. unfold cache_debug_traverse, _cache_lock.
  destruct (inv_data_split _ _ Hinv) as (k & Hd & Hk).
  generalize (Nat.lt_succ_diag_r (length (CACHE_DATA c))).
  rewrite Hd. intros Hlen.
  rewrite (traverse_loop_layout _ _ _ (inv_items _ _ Hinv) Hlen).
  destruct (decide _) as [Hfull|Hroom].
  - destruct k; [done|lia].
  - pose proof (inv_length_bound _ _ Hinv). destruct k; [lia|done].
Qed.

(** While a byte is left after the items, both scans stay inside the
    region. *)
Lemma scans_in_region_with_room (c : cache) (log : list (list byte))
    (item : list byte) :
  reachable c log → cstring item →
  hdr_length c < size c - sizeof_cachehdr →
  fst (cache_contains (Some c) (Some item)) ≠ Fault
  ∧ cache_debug_traverse (Some c) = Ret log.
Proof.
  intros Hinv%reachable_inv Hi Hroom.
  rewrite (cache_contains_spec _ _ _ Hinv Hi), (debug_traverse_spec _ _ Hinv).
  destruct (decide (hdr_length c = size c - sizeof_cachehdr)) as [?|_]; [lia|].
  split; [by destruct (decide (item ∈ log))|done].
Qed.

(** Once the items reach the last byte of the region, the scan for a
    string that is not stored, and the traversal, leave it. *)
Lemma scans_leave_full_region (c : cache) (log : list (list byte))
    (item : list byte) :
  reachable c log → cstring item → item ∉ log →
  hdr_length c = size c - sizeof_cachehdr →
  fst (cache_contains (Some c) (Some item)) = Fault
  ∧ cache_debug_traverse (Some c) = Fault.
Proof.
  intros Hinv%reachable_inv Hi Hnot Hfull.
  rewrite (cache_contains_spec _ _ _ Hinv Hi), (debug_traverse_spec _ _ Hinv).
  destruct (decide (hdr_length c = size c - sizeof_cachehdr)); [|done].
  by rewrite decide_False.
Qed.

Lemma items_from_nonempty (m run : list byte) :
  Forall (λ s, s ≠ []) (items_from m run).
Proof.
  revert run. induction m as [|b m IH]; intros run; simpl; [constructor|].
  destruct (is_nul b); [|apply IH].
  destruct run; constructor; [done|apply IH].
Qed.

Lemma cache_contains_fst (c : cache) (item : list byte) :
  fst (cache_contains (Some c) (Some item))
  = _cache_contains_loop (S (length (CACHE_DATA c))) (CACHE_DATA c) item.
Proof. reflexivity. Qed.

(** * The claims *)

(** C1. Zero-fill and header invariant.  In every store reachable from a
    freshly created region by the public operations (creation by
    [cache_map] is the first case of [reachable], and [cache_insert],
    [cache_contains], [cache_notcontains_insert] and a further attach are
    its steps), the bytes after the header are [region_size - header_size]
    many, every one of them from offset [length] on is zero,
    [length <= region_size - header_size], [count] is the number of strings
    appended with success, and [length] counts their bytes, terminators
    included, which lie before offset [length] in the order of insertion;
    so [length] and [count] are 0 right after creation. *)
Theorem zero_fill_header_invariant (c : cache) (log : list (list byte)) :
  reachable c log →
  Z.of_nat (length (CACHE_DATA c)) = size c - sizeof_cachehdr
  ∧ (∀ i : nat, hdr_length c ≤ Z.of_nat i < size c - sizeof_cachehdr →
                CACHE_DATA c !! i = Some x00)
  ∧ 0 ≤ hdr_length c ≤ size c - sizeof_cachehdr
  ∧ hdr_count c = Z.of_nat (length log)
  ∧ hdr_length c = Z.of_nat (length (layout log))
  ∧ take (Z.to_nat (hdr_length c)) (CACHE_DATA c) = layout log.
Proof.
  intros Hreach.
  destruct (zero_fill _ _ Hreach) as [Hsz Hzero].
  apply reachable_inv in Hreach as Hinv.
  pose proof (inv_length_bound _ _ Hinv) as HL.
  pose proof (inv_count _ _ Hinv) as Hc.
  pose proof (inv_length _ _ Hinv) as Hlen.
  repeat split; try done; try lia.
  rewrite (inv_data _ _ Hinv), Hlen, Nat2Z.id.
  apply take_app_length.
Qed.

Lemma zero_fill_header_invariant_witness :
  reachable (inserted test_store AAA) [AAA]
  ∧ hdr_length (inserted test_store AAA) = 4
  ∧ hdr_count (inserted test_store AAA) = 1
  ∧ CACHE_DATA (inserted test_store AAA) !! 4%nat = Some x00.
Proof.
  split; [exact store_AAA_reachable|].
  split; [reflexivity|]. split; [reflexivity|].
  destruct (zero_fill_header_invariant _ _ store_AAA_reachable)
    as (_ & Hzero & _).
  apply Hzero. vm_compute. split; [discriminate|reflexivity].
Defined.

(** C2, as the specification states it, fails: a string that is not
    stored and does not fit is still not found after [cache_insert], and
    [count] stays as it was.  Here the store is the fresh test store and the
    string has 4080 bytes, one more than fit with the terminator. *)
Lemma insert_then_contains_counterexample :
  reachable test_store []
  ∧ arg_ok test_store (bytes_B 4080)
  ∧ bytes_B 4080 ≠ []
  ∧ (bytes_B 4080 ∉ @nil (list byte))
  ∧ fst (cache_insert (Some test_store) (Some (bytes_B 4080)))
    = Ret CACHE_INSERTION_FAILED
  ∧ fst (cache_contains (Some (inserted test_store (bytes_B 4080)))
           (Some (bytes_B 4080)))
    ≠ Ret CACHE_CONTAINS_SUCCESS
  ∧ hdr_count (inserted test_store (bytes_B 4080))
    ≠ hdr_count test_store + 1.
Proof.
  split; [exact test_store_reachable|].
  split; [apply arg_ok_test; [done|vm_compute; done]|].
  split; [done|]. split; [apply not_elem_of_nil|].
  split; [vm_compute; reflexivity|].
  split; vm_compute; discriminate.
Qed.

(** C2, amended.  For every string [s] that is not stored and whose insert
    is accepted, [cache_contains] reports not-found before the insert and
    found after it, and [count] grows by exactly 1. *)
Theorem contains_after_accepted_insert (c c' : cache)
    (log : list (list byte)) (s : list byte) :
  reachable c log → arg_ok c s → s ∉ log →
  cache_insert (Some c) (Some s) = (Ret CACHE_INSERTION_SUCCESS, Some c') →
  fst (cache_contains (Some c) (Some s)) = Ret CACHE_CONTAINS_FAILED
  ∧ fst (cache_contains (Some c') (Some s)) = Ret CACHE_CONTAINS_SUCCESS
  ∧ hdr_count c' = hdr_count c + 1.
Proof.
  intros Hinv%reachable_inv Harg Hnot Hins.
  pose proof Harg as [Hs _].
  rewrite (cache_insert_spec _ _ _ Hinv Harg) in Hins.
  destruct (decide _) as [[Hne Hfit]|_]; [|by injection Hins].
  injection Hins as <-.
  pose proof (after_insert_inv _ _ _ Hinv Harg Hne Hfit) as Hinv'.
  pose proof (strlen_nonneg s).
  repeat split.
  - rewrite (cache_contains_spec _ _ _ Hinv Hs).
    rewrite decide_False by done.
    rewrite decide_False; [done|].
    unfold needed in Hfit. lia.
  - assert (arg_ok (after_insert c s) s) as [Hs' _] by done.
    rewrite (cache_contains_spec _ _ _ Hinv' Hs').
    rewrite decide_True; [done|].
    apply elem_of_app. right. by left.
Qed.

Lemma contains_after_accepted_insert_witness :
  fst (cache_contains (Some test_store) (Some AAA)) = Ret CACHE_CONTAINS_FAILED
  ∧ fst (cache_contains (Some (inserted test_store AAA)) (Some AAA))
    = Ret CACHE_CONTAINS_SUCCESS
  ∧ hdr_count (inserted test_store AAA) = hdr_count test_store + 1.
Proof.
  apply (contains_after_accepted_insert test_store (inserted test_store AAA)
           [] AAA).
  - exact test_store_reachable.
  - apply arg_ok_test; [done|vm_compute; done].
  - apply not_elem_of_nil.
  - vm_compute. reflexivity.
Defined.

(** C3.  An accepted insert of [s] copies the [strlen(s)] bytes of [s] to
    offset [length] and writes nothing else: every other byte, the one
    right after the copy included, is as before.  That byte was zero and is
    the terminator; [length] moves by [strlen(s) + 1], to the byte after
    it, and [count] by 1. *)
Theorem insert_copies_without_terminator (c c' : cache)
    (log : list (list byte)) (s : list byte) :
  reachable c log → arg_ok c s →
  _cache_insert c s = (Ret CACHE_INSERTION_SUCCESS, c') →
  let off := Z.to_nat (hdr_length c) in
  (∀ i : nat, (i < length s)%nat → CACHE_DATA c' !! (off + i)%nat = s !! i)
  ∧ (∀ j : nat, (j < off ∨ off + length s <= j)%nat →
                CACHE_DATA c' !! j = CACHE_DATA c !! j)
  ∧ CACHE_DATA c !! (off + length s)%nat = Some x00
  ∧ CACHE_DATA c' !! (off + length s)%nat = Some x00
  ∧ hdr_length c' = hdr_length c + (strlen s + 1)
  ∧ Z.of_nat (off + length s) = hdr_length c' - 1
  ∧ hdr_count c' = hdr_count c + 1.
Proof.
  intros Hreach Harg Hins off.
  pose proof (reachable_inv _ _ Hreach) as Hinv.
  destruct (insert_success_inv _ _ _ _ Hinv Harg Hins) as (Hne & Hfit & ->).
  pose proof (inv_length_bound _ _ Hinv) as HL.
  destruct (zero_fill _ _ Hreach) as (Hsz & Hzero).
  unfold needed, strlen in Hfit.
  assert (off + length s < length (CACHE_DATA c))%nat as Hin by lia.
  assert (CACHE_DATA c !! (off + length s)%nat = Some x00) as Hz.
  { apply Hzero. lia. }
  assert (∀ j : nat, (j < off ∨ off + length s <= j)%nat →
            CACHE_DATA (after_insert c s) !! j = CACHE_DATA c !! j) as Hout.
  { intros j Hj. apply patch_outside; [lia|done]. }
  repeat split.
  - intros i Hi. apply patch_inside; [lia|done].
  - done.
  - done.
  - rewrite Hout by lia. done.
  - change (hdr_length (after_insert c s))
      with (hdr_length c + strlen s + 1). lia.
  - change (hdr_length (after_insert c s))
      with (hdr_length c + strlen s + 1). unfold strlen. lia.
Qed.

Lemma insert_copies_without_terminator_witness :
  CACHE_DATA (inserted test_store AAA) !! 0%nat = Some "A"%byte
  ∧ CACHE_DATA (inserted test_store AAA) !! 3%nat = Some x00
  ∧ hdr_length (inserted test_store AAA) = hdr_length test_store + (3 + 1).
Proof.
  destruct (insert_copies_without_terminator test_store
              (inserted test_store AAA) [] AAA)
    as (Hcopy & _ & _ & Hnul & Hlen & _).
  - exact test_store_reachable.
  - apply arg_ok_test; [done|vm_compute; done].
  - vm_compute. reflexivity.
  - split; [apply (Hcopy 0%nat); simpl; lia|].
    split; [exact Hnul|exact Hlen].
Defined.

(** C4.  [_cache_insert] fails exactly when the string is empty, the end
    address of the write wraps around the address space, or header,
    occupied bytes, string and terminator together exceed the region size
    ([needed]); a failed insert returns the store as it was; an insert that
    fits succeeds; and the empty string fails on every store. *)
Theorem insert_fails_exactly_when (c : cache) (log : list (list byte))
    (s : list byte) :
  reachable c log → arg_ok c s →
  (fst (_cache_insert c s) = Ret CACHE_INSERTION_FAILED
   ↔ s = [] ∨ 2 ^ 64 ≤ CACHE_ENDPTR c + strlen s + 1 ∨ size c < needed c s)
  ∧ (fst (_cache_insert c s) = Ret CACHE_INSERTION_FAILED →
     snd (_cache_insert c s) = c)
  ∧ (s ≠ [] → needed c s ≤ size c →
     fst (_cache_insert c s) = Ret CACHE_INSERTION_SUCCESS)
  ∧ (∀ c0 : cache, _cache_insert c0 [] = (Ret CACHE_INSERTION_FAILED, c0)).
Proof.
  intros Hinv%reachable_inv Harg.
  pose proof (inv_length_bound _ _ Hinv) as HL.
  pose proof (inv_addr _ _ Hinv) as [Ha1 Ha2].
  assert (2 ^ 64 ≤ CACHE_ENDPTR c + strlen s + 1 → size c < needed c s)
    as Hwrap.
  { unfold CACHE_ENDPTR, CACHE_DATA_addr, needed. lia. }
  assert (s = [] ∨ size c < needed c s ∨ (s ≠ [] ∧ needed c s ≤ size c))
    as Hcases.
  { destruct (decide (s = [])); [by left|right].
    destruct (Z.lt_ge_cases (size c) (needed c s)); [by left|right].
    split; [done|lia]. }
  repeat split.
  - intros Hfail. destruct Hcases as [?|[?|[Hne Hfit]]]; [by left|by right; right|].
    rewrite (insert_accepted _ _ _ Hinv Harg Hne Hfit) in Hfail. done.
  - intros [?|[?%Hwrap|?]];
      by rewrite (insert_rejected _ _ _ Hinv Harg) by tauto.
  - intros Hfail. destruct Hcases as [?|[?|[Hne Hfit]]].
    + by rewrite (insert_rejected _ _ _ Hinv Harg) by tauto.
    + by rewrite (insert_rejected _ _ _ Hinv Harg) by tauto.
    + rewrite (insert_accepted _ _ _ Hinv Harg Hne Hfit) in Hfail. done.
  - intros Hne Hfit. by rewrite (insert_accepted _ _ _ Hinv Harg Hne Hfit).
Qed.

Lemma insert_fails_exactly_when_witness :
  _cache_insert test_store (bytes_B 4080)
    = (Ret CACHE_INSERTION_FAILED, test_store)
  ∧ fst (_cache_insert test_store AAA) = Ret CACHE_INSERTION_SUCCESS.
Proof.
  destruct (insert_fails_exactly_when test_store [] (bytes_B 4080))
    as (Hiff & Hsame & _).
  { exact test_store_reachable. }
  { apply arg_ok_test; [done|vm_compute; done]. }
  destruct (insert_fails_exactly_when test_store [] AAA)
    as (_ & _ & Hfit & _).
  { exact test_store_reachable. }
  { apply arg_ok_test; [done|vm_compute; done]. }
  split.
  - assert (fst (_cache_insert test_store (bytes_B 4080))
            = Ret CACHE_INSERTION_FAILED) as Hfail.
    { apply Hiff. right. right. vm_compute. reflexivity. }
    specialize (Hsame Hfail).
    destruct (_cache_insert test_store (bytes_B 4080)) as [r c1].
    simpl in *. by subst.
  - apply Hfit; [done|]. vm_compute. discriminate.
Defined.

(** C5.  [cache_contains] runs the scan of the arena from offset 0 and
    hands the store back as it was; the scan ends by itself and reports
    found exactly when the query is one of [stored_items], the runs of
    bytes up to a NUL that come before the first empty run; on a reachable
    store these are the strings appended so far. *)
Theorem contains_found_iff_stored (c : cache) (item : list byte) :
  cstring item →
  snd (cache_contains (Some c) (Some item)) = Some c
  ∧ fst (cache_contains (Some c) (Some item)) ≠ OutOfFuel
  ∧ (fst (cache_contains (Some c) (Some item)) = Ret CACHE_CONTAINS_SUCCESS
     ↔ item ∈ stored_items (CACHE_DATA c))
  ∧ (∀ log, reachable c log → stored_items (CACHE_DATA c) = log).
Proof.
  intros Hi.
  unfold cache_contains, _cache_contains, _cache_lock, _cache_unlock. simpl.
  destruct (contains_loop_spec (S (length (CACHE_DATA c))) (CACHE_DATA c)
              item Hi) as [Hfuel Hiff]; [lia|].
  repeat split; try done; try apply Hiff.
  intros log Hinv%reachable_inv.
  rewrite (inv_data _ _ Hinv).
  apply stored_items_layout, (inv_items _ _ Hinv).
Qed.

Lemma contains_found_iff_stored_witness :
  fst (cache_contains (Some (inserted test_store AAA)) (Some AAA))
  = Ret CACHE_CONTAINS_SUCCESS
  ∧ snd (cache_contains (Some (inserted test_store AAA)) (Some AAA))
    = Some (inserted test_store AAA).
Proof.
  destruct (contains_found_iff_stored (inserted test_store AAA) AAA)
    as (Hsame & _ & Hiff & Hlog).
  - by apply cstring_replicate.
  - split; [|exact Hsame].
    apply Hiff. rewrite (Hlog [AAA] store_AAA_reachable). by left.
Defined.

(** C6, as the specification states it, fails: when the first
    [cache_notcontains_insert] fails for lack of room, the second one does
    not report the string as present; it fails again. *)
Lemma notcontains_insert_twice_counterexample :
  reachable test_store []
  ∧ arg_ok test_store (bytes_B 4080)
  ∧ bytes_B 4080 ≠ []
  ∧ cache_notcontains_insert (Some test_store) (Some (bytes_B 4080))
    = (Ret CACHE_INSERTION_FAILED, Some test_store)
  ∧ fst (cache_notcontains_insert
           (snd (cache_notcontains_insert (Some test_store)
                   (Some (bytes_B 4080))))
           (Some (bytes_B 4080)))
    ≠ Ret CACHE_CONTAINS_SUCCESS.
Proof.
  split; [exact test_store_reachable|].
  split; [apply arg_ok_test; [done|vm_compute; done]|].
  split; [done|].
  split; [vm_compute; reflexivity|].
  vm_compute. discriminate.
Qed.

(** C6, amended.  Two [cache_notcontains_insert] of the same string in a
    row: when the first reports newly inserted or already present, the
    second reports already present; when the first reports failure, so
    does the second; the second call always leaves the store, and so
    [count], as it found it; and the three results are distinct values. *)
Theorem notcontains_insert_twice (c c1 c2 : cache) (log : list (list byte))
    (s : list byte) (r1 r2 : outcome Z) :
  reachable c log → arg_ok c s →
  cache_notcontains_insert (Some c) (Some s) = (r1, Some c1) →
  cache_notcontains_insert (Some c1) (Some s) = (r2, Some c2) →
  (r1 = Ret CACHE_INSERTION_SUCCESS ∨ r1 = Ret CACHE_CONTAINS_SUCCESS →
   r2 = Ret CACHE_CONTAINS_SUCCESS)
  ∧ (r1 = Ret CACHE_INSERTION_FAILED → r2 = Ret CACHE_INSERTION_FAILED)
  ∧ c2 = c1
  ∧ hdr_count c2 = hdr_count c1
  ∧ CACHE_CONTAINS_SUCCESS ≠ CACHE_INSERTION_SUCCESS
  ∧ CACHE_CONTAINS_SUCCESS ≠ CACHE_INSERTION_FAILED
  ∧ CACHE_INSERTION_SUCCESS ≠ CACHE_INSERTION_FAILED.
Proof.
  intros Hinv%reachable_inv Harg H1 H2.
  rewrite (cache_notcontains_insert_spec _ _ _ Hinv Harg) in H1.
  destruct (decide (s ∈ log)) as [Hin|Hnot].
  { injection H1 as <- <-.
    rewrite (cache_notcontains_insert_spec _ _ _ Hinv Harg) in H2.
    rewrite decide_True in H2 by done. injection H2 as <- <-.
    repeat split; done. }
  destruct (decide (hdr_length c = size c - sizeof_cachehdr)) as [Hfull|Hroom].
  { injection H1 as <- <-.
    rewrite (cache_notcontains_insert_spec _ _ _ Hinv Harg) in H2.
    rewrite decide_False, decide_True in H2 by done. injection H2 as <- <-.
    repeat split; try done. by intros [|]. }
  rewrite (cache_insert_spec _ _ _ Hinv Harg) in H1.
  destruct (decide (s ≠ [] ∧ needed c s ≤ size c)) as [[Hne Hfit]|Hrej].
  - injection H1 as <- <-.
    pose proof (after_insert_inv _ _ _ Hinv Harg Hne Hfit) as Hinv'.
    assert (arg_ok (after_insert c s) s) as Harg' by done.
    rewrite (cache_notcontains_insert_spec _ _ _ Hinv' Harg') in H2.
    rewrite decide_True in H2.
    2:{ apply elem_of_app. right. by left. }
    injection H2 as <- <-. repeat split; done.
  - injection H1 as <- <-.
    rewrite (cache_notcontains_insert_spec _ _ _ Hinv Harg) in H2.
    rewrite !decide_False in H2 by done.
    rewrite (cache_insert_spec _ _ _ Hinv Harg) in H2.
    rewrite decide_False in H2 by done.
    injection H2 as <- <-. repeat split; try done. by intros [|].
Qed.

Lemma notcontains_insert_twice_witness :
  fst (cache_notcontains_insert (Some test_store) (Some AAA))
  = Ret CACHE_INSERTION_SUCCESS
  ∧ fst (cache_notcontains_insert (Some (inserted test_store AAA)) (Some AAA))
    = Ret CACHE_CONTAINS_SUCCESS.
Proof.
  split; [vm_compute; reflexivity|].
  destruct (notcontains_insert_twice test_store (inserted test_store AAA)
              (inserted test_store AAA) [] AAA
              (Ret CACHE_INSERTION_SUCCESS)
              (fst (cache_notcontains_insert
                      (Some (inserted test_store AAA)) (Some AAA))))
    as (Hsecond & _).
  - exact test_store_reachable.
  - apply arg_ok_test; [done|vm_compute; done].
  - vm_compute. reflexivity.
  - vm_compute. reflexivity.
  - apply Hsecond. by left.
Defined.

(** C7, as the specification states it, fails for the empty string:
    [cache_contains] scans for it and answers not-found, not
    [CACHE_EINVAL]. *)
Lemma contains_empty_counterexample :
  cache_contains (Some test_store) (Some [])
  = (Ret CACHE_CONTAINS_FAILED, Some test_store)
  ∧ CACHE_CONTAINS_FAILED ≠ CACHE_EINVAL.
Proof. split; [vm_compute; reflexivity|vm_compute; discriminate]. Qed.

(** C7, amended.  [cache_contains] with a null handle or a null query is
    rejected with [CACHE_EINVAL] whatever the store holds, the store left as
    it is.  The empty string is not rejected: the scan runs, never answers
    [CACHE_EINVAL] nor found, and on a reachable store with a byte left
    after the items it answers not-found. *)
Theorem contains_rejects_null_only (c : cache) (log : list (list byte)) :
  reachable c log →
  hdr_length c < size c - sizeof_cachehdr →
  (∀ cachep, cache_contains cachep None = (Ret CACHE_EINVAL, cachep))
  ∧ (∀ item, cache_contains None item = (Ret CACHE_EINVAL, None))
  ∧ (∀ c0 : cache,
       fst (cache_contains (Some c0) (Some [])) ≠ Ret CACHE_EINVAL
       ∧ fst (cache_contains (Some c0) (Some [])) ≠ Ret CACHE_CONTAINS_SUCCESS)
  ∧ cache_contains (Some c) (Some []) = (Ret CACHE_CONTAINS_FAILED, Some c).
Proof.
  intros Hinv%reachable_inv Hroom.
  split; [by intros [?|]|]. split; [by intros [?|]|]. split.
  - intros c0. rewrite cache_contains_fst.
    destruct (contains_loop_spec (S (length (CACHE_DATA c0))) (CACHE_DATA c0)
                []) as [_ Hiff]; [constructor|lia|].
    split.
    + intros Heq. apply contains_loop_codes in Heq as [Heq|Heq];
        vm_compute in Heq; discriminate.
    + intros Heq%Hiff.
      pose proof (items_from_nonempty (CACHE_DATA c0) []) as Hne.
      rewrite Forall_forall in Hne. by apply (Hne _ Heq).
  - rewrite (cache_contains_spec _ _ _ Hinv); [|constructor].
    destruct (decide ([] ∈ log)) as [Hin|_].
    + pose proof (inv_items _ _ Hinv) as Hit.
      rewrite Forall_forall in Hit. by destruct (Hit _ Hin).
    + rewrite decide_False by lia. done.
Qed.

Lemma contains_rejects_null_only_witness :
  cache_contains (Some test_store) None = (Ret CACHE_EINVAL, Some test_store)
  ∧ cache_contains (Some test_store) (Some [])
    = (Ret CACHE_CONTAINS_FAILED, Some test_store).
Proof.
  destruct (contains_rejects_null_only test_store [])
    as (Hnull & _ & _ & Hempty).
  - exact test_store_reachable.
  - vm_compute. reflexivity.
  - split; [apply Hnull|exact Hempty].
Defined.

(** C8, as the specification states it, fails: the empty string is not
    reported as [CACHE_EINVAL], and a string that does not fit is reported
    with the very same value as the empty one. *)
Lemma insert_failure_kinds_counterexample :
  fst (cache_insert (Some test_store) (Some [])) = Ret CACHE_INSERTION_FAILED
  ∧ fst (cache_insert (Some test_store) (Some [])) ≠ Ret CACHE_EINVAL
  ∧ fst (cache_insert (Some test_store) (Some (bytes_B 4080)))
    = fst (cache_insert (Some test_store) (Some [])).
Proof.
  split; [vm_compute; reflexivity|].
  split; [vm_compute; discriminate|vm_compute; reflexivity].
Qed.

(** C8, amended.  [cache_insert] reports a null handle or a null string as
    [CACHE_EINVAL].  The empty string, and a string whose insert would
    overflow the region or wrap the end address, are both reported as
    [CACHE_INSERTION_FAILED], one value that differs from [CACHE_EINVAL]
    and from [CACHE_INSERTION_SUCCESS]. *)
Theorem insert_failure_kinds (c : cache) (log : list (list byte))
    (s : list byte) :
  reachable c log → arg_ok c s →
  2 ^ 64 ≤ CACHE_ENDPTR c + strlen s + 1 ∨ size c < needed c s →
  cache_insert (Some c) (Some s) = (Ret CACHE_INSERTION_FAILED, Some c)
  ∧ (∀ c0 : cache,
       cache_insert (Some c0) (Some []) = (Ret CACHE_INSERTION_FAILED, Some c0))
  ∧ (∀ cachep, cache_insert cachep None = (Ret CACHE_EINVAL, cachep))
  ∧ (∀ item, cache_insert None item = (Ret CACHE_EINVAL, None))
  ∧ CACHE_INSERTION_FAILED ≠ CACHE_EINVAL
  ∧ CACHE_INSERTION_FAILED ≠ CACHE_INSERTION_SUCCESS.
Proof.
  intros Hinv%reachable_inv Harg Hover.
  pose proof (inv_length_bound _ _ Hinv) as HL.
  pose proof (inv_addr _ _ Hinv) as [Ha1 Ha2].
  assert (size c < needed c s) as Hex.
  { destruct Hover as [Hw|?]; [|done].
    unfold CACHE_ENDPTR, CACHE_DATA_addr, needed in *. lia. }
  split.
  { rewrite (cache_insert_spec _ _ _ Hinv Harg).
    rewrite decide_False; [done|]. intros [_ ?]. lia. }
  split; [done|]. split; [by intros [?|]|]. split; [by intros [?|]|].
  split; vm_compute; discriminate.
Qed.

Lemma insert_failure_kinds_witness :
  cache_insert (Some test_store) (Some (bytes_B 4080))
  = (Ret CACHE_INSERTION_FAILED, Some test_store).
Proof.
  apply (insert_failure_kinds test_store [] (bytes_B 4080)).
  - exact test_store_reachable.
  - apply arg_ok_test; [done|vm_compute; done].
  - right. vm_compute. reflexivity.
Defined.

(** C9.  [cache_map] with a null handle, a null file path, a null lock
    name, a zero size or a size that is not a multiple of [0x1000] returns
    [CACHE_EINVAL] without a single system call, the handle untouched; and
    [cache_unmap] with a null handle returns [CACHE_EINVAL] without any of
    its three releases. *)
Theorem map_unmap_validate_first (cachep : option cache)
    (fname lockname : option string) (sz : Z) (o : os)
    (sem_close_ret munmap_ret close_ret : Z) :
  cachep = None ∨ fname = None ∨ lockname = None
  ∨ sz = 0 ∨ sz mod 0x1000 ≠ 0 →
  cache_map cachep fname lockname sz o = (CACHE_EINVAL, [], cachep)
  ∧ cache_unmap None sem_close_ret munmap_ret close_ret = (CACHE_EINVAL, []).
Proof.
  intros Hbad. split; [|done]. unfold cache_map.
  destruct cachep as [c|]; [|done].
  destruct fname as [fname|]; [|done].
  destruct lockname as [lockname|]; [|done].
  destruct Hbad as [?|[?|[?|[->|Hmod]]]]; try done.
  destruct (Z.eqb_spec sz 0); [done|].
  destruct (Z.eqb_spec (sz mod 4096) 0); [done|done].
Qed.

Lemma map_unmap_validate_first_witness :
  cache_map (Some zeroed_handle) (Some TESTCACHEFILE) (Some TESTLOCKNAME)
    0x1001 os_fresh
  = (CACHE_EINVAL, [], Some zeroed_handle)
  ∧ cache_unmap None 0 0 0 = (CACHE_EINVAL, []).
Proof.
  apply map_unmap_validate_first.
  right. right. right. right. vm_compute. discriminate.
Defined.

(** C10 does not hold of the code.  After a successful insert that fills
    the region to its last byte, the store is reachable and full; the scan
    of [cache_contains] for a string that is not stored, the scan inside
    [cache_notcontains_insert] and the traversal of [cache_debug_traverse]
    then test the byte at region offset [size], outside the region. *)
Theorem scan_leaves_full_region :
  reachable store_full [bytes_A 4079]
  ∧ fst (cache_insert (Some test_store) (Some (bytes_A 4079)))
    = Ret CACHE_INSERTION_SUCCESS
  ∧ sizeof_cachehdr + hdr_length store_full = size store_full
  ∧ fst (cache_contains (Some store_full) (Some (bytes_B 1))) = Fault
  ∧ fst (cache_notcontains_insert (Some store_full) (Some (bytes_B 1)))
    = Fault
  ∧ cache_debug_traverse (Some store_full) = Fault.
Proof.
  split; [exact store_full_reachable|].
  vm_compute. repeat split.
Qed.

(** The same after the 1020 inserts of ["AAA"] of the test
    [InsertFailsLengthExceeded]. *)
Example test_fill_leaves_region :
  (∃ log, reachable test_full log)
  ∧ hdr_count test_full = 1020
  ∧ sizeof_cachehdr + hdr_length test_full = size test_full
  ∧ fst (cache_insert (Some test_full) (Some (bytes_A 1)))
    = Ret CACHE_INSERTION_FAILED
  ∧ fst (cache_contains (Some test_full) (Some (bytes_A 1))) = Fault
  ∧ cache_debug_traverse (Some test_full) = Fault.
Proof.
  split.
  { apply (insert_n_reachable 1020 test_store [] AAA).
    - exact test_store_reachable.
    - apply arg_ok_test; [done|vm_compute; done]. }
  vm_compute. repeat split.
Qed.

(** * Further properties of the code *)

(** ** [cache_map]: lock, file descriptor and failure kinds *)

(** The seven ways through [cache_map] once the arguments are accepted. *)
Lemma cache_map_cases (c : cache) (f l : string) (sz : Z) (o : os) :
  map_args_ok sz →
  let r := cache_map (Some c) (Some f) (Some l) sz o in
  let code := fst (fst r) in
  let t := snd (fst r) in
  let pre := [sys_sem_open l; sys_sem_wait (sem_open_ret o)] in
  let post := [sys_sem_post (sem_open_ret o)] in
  (sem_open_ret o = SEM_FAILED ∧ code = CACHE_LOCK_INIT_FAILED
   ∧ t = [sys_sem_open l])
  ∨ (sem_open_ret o ≠ SEM_FAILED ∧ open_ret o ≠ -1
     ∧ mmap_ret o = MAP_FAILED ∧ code = CACHE_MAP_FAILED
     ∧ t = pre ++ [sys_open f false; sys_mmap (open_ret o) sz;
                   sys_close (open_ret o)] ++ post)
  ∨ (sem_open_ret o ≠ SEM_FAILED ∧ open_ret o ≠ -1
     ∧ mmap_ret o ≠ MAP_FAILED ∧ code = CACHE_OP_SUCCESS
     ∧ t = pre ++ [sys_open f false; sys_mmap (open_ret o) sz] ++ post)
  ∨ (sem_open_ret o ≠ SEM_FAILED ∧ open_ret o = -1
     ∧ open_creat_ret o = -1 ∧ code = CACHE_OPEN_FAILED
     ∧ t = pre ++ [sys_open f false; sys_open f true] ++ post)
  ∨ (sem_open_ret o ≠ SEM_FAILED ∧ open_ret o = -1
     ∧ open_creat_ret o ≠ -1 ∧ ftruncate_ret o = -1
     ∧ code = CACHE_FTRUNC_FAILED
     ∧ t = pre ++ [sys_open f false; sys_open f true;
                   sys_ftruncate (open_creat_ret o) sz;
                   sys_close (open_creat_ret o)] ++ post)
  ∨ (sem_open_ret o ≠ SEM_FAILED ∧ open_ret o = -1
     ∧ open_creat_ret o ≠ -1 ∧ ftruncate_ret o ≠ -1
     ∧ mmap_ret o = MAP_FAILED ∧ code = CACHE_MAP_FAILED
     ∧ t = pre ++ [sys_open f false; sys_open f true;
                   sys_ftruncate (open_creat_ret o) sz;
                   sys_mmap (open_creat_ret o) sz;
                   sys_close (open_creat_ret o)] ++ post)
  ∨ (sem_open_ret o ≠ SEM_FAILED ∧ open_ret o = -1
     ∧ open_creat_ret o ≠ -1 ∧ ftruncate_ret o ≠ -1
     ∧ mmap_ret o ≠ MAP_FAILED ∧ code = CACHE_OP_SUCCESS
     ∧ t = pre ++ [sys_open f false; sys_open f true;
                   sys_ftruncate (open_creat_ret o) sz;
                   sys_mmap (open_creat_ret o) sz;
                   sys_msync (mmap_ret o) sz] ++ post).
Proof.
  intros [Hnz Hmod]. unfold cache_map.
  destruct (Z.eqb_spec sz 0) as [|_]; [done|].
  destruct (Z.eqb_spec (sz mod 4096) 0) as [_|]; [|done].
  cbn [orb negb set_size set_lock set_fd set_hdr lock fd size hdr].
  destruct (Z.eqb_spec (sem_open_ret o) SEM_FAILED) as [Hs|Hs].
  { left. done. }
  right. unfold mapped.
  assert (∀ x y : Z, x = y → (x =? y) = true) as Heq
    by (intros; by apply Z.eqb_eq).
  assert (∀ x y : Z, x ≠ y → (x =? y) = false) as Hne
    by (intros; by apply Z.eqb_neq).
  destruct (decide (open_ret o = -1)) as [Ho|Ho];
    [rewrite (Heq _ _ Ho)|rewrite (Hne _ _ Ho)]; cbn [negb].
  - do 2 right.
    destruct (decide (open_creat_ret o = -1)) as [Hc|Hc];
      [rewrite (Heq _ _ Hc)|rewrite (Hne _ _ Hc)]; cbn [negb].
    { left. done. }
    right.
    destruct (decide (ftruncate_ret o = -1)) as [Hf|Hf];
      [rewrite (Heq _ _ Hf)|rewrite (Hne _ _ Hf)].
    { left. done. }
    right.
    destruct (decide (mmap_ret o = MAP_FAILED)) as [Hm|Hm];
      [rewrite (Heq _ _ Hm)|rewrite (Hne _ _ Hm)];
      cbn [addr hdr fd lock size];
      [rewrite (Heq _ _ Hm)|rewrite (Hne _ _ Hm)].
    + left. done.
    + right. done.
  - destruct (decide (mmap_ret o = MAP_FAILED)) as [Hm|Hm];
      [rewrite (Heq _ _ Hm)|rewrite (Hne _ _ Hm)];
      cbn [addr hdr fd lock size];
      [rewrite (Heq _ _ Hm)|rewrite (Hne _ _ Hm)].
    + left. done.
    + right. left. done.
Qed.

Lemma cache_map_einval (cachep : option cache) (fname lockname : option string)
    (sz : Z) (o : os) :
  cachep = None ∨ fname = None ∨ lockname = None ∨ ¬ map_args_ok sz →
  cache_map cachep fname lockname sz o = (CACHE_EINVAL, [], cachep).
Proof.
  intros Hbad. unfold cache_map.
  destruct cachep as [c|]; [|done].
  destruct fname as [f|]; [|done].
  destruct lockname as [l|]; [|done].
  destruct Hbad as [?|[?|[?|Hsz]]]; try done.
  destruct (Z.eqb_spec sz 0); [done|].
  destruct (Z.eqb_spec (sz mod 4096) 0); [|done].
  exfalso. by apply Hsz.
Qed.

Lemma map_args_dec (sz : Z) : map_args_ok sz ∨ ¬ map_args_ok sz.
Proof.
  unfold map_args_ok.
  destruct (decide (sz = 0)); [right; tauto|].
  destruct (decide (sz mod 4096 = 0)); [left|right]; tauto.
Qed.

Lemma return_codes_distinct :
  NoDup [CACHE_OP_SUCCESS; CACHE_OPEN_FAILED; CACHE_FTRUNC_FAILED;
         CACHE_MAP_FAILED; CACHE_LOCK_INIT_FAILED; CACHE_INSERTION_SUCCESS;
         CACHE_INSERTION_FAILED; CACHE_CONTAINS_SUCCESS;
         CACHE_CONTAINS_FAILED; CACHE_MUNMAP_FAILED; CACHE_CLOSE_FAILED;
         CACHE_SEMCLOSE_FAILED; CACHE_EINVAL].
Proof. compute_done. Qed.

Ltac last_conj H :=
  repeat match type of H with _ ∧ _ => destruct H as [_ H] end.

(** X1.  Whatever the arguments and whatever the system answers,
    [cache_map] waits on the semaphore as often as it posts it, and a run
    that waited starts with [sem_open] and the wait and ends with the
    [sem_post] on the same semaphore: it never returns holding the lock. *)
Theorem cache_map_releases_lock (cachep : option cache)
    (fname lockname : option string) (sz : Z) (o : os) :
  let t := snd (fst (cache_map cachep fname lockname sz o)) in
  length (filter is_sem_wait t) = length (filter is_sem_post t)
  ∧ (∀ l, sys_sem_wait l ∈ t →
          last t = Some (sys_sem_post l)
          ∧ ∃ name t', t = sys_sem_open name :: sys_sem_wait l :: t').
Proof.
  intros t. subst t.
  assert (cachep = None ∨ fname = None ∨ lockname = None ∨ ¬ map_args_ok sz
          ∨ ∃ c f l, cachep = Some c ∧ fname = Some f ∧ lockname = Some l
                     ∧ map_args_ok sz) as [?|[?|[?|[?|Hok]]]].
  { destruct cachep, fname, lockname; try tauto.
    destruct (map_args_dec sz); [|tauto]. do 4 right. by eexists _, _, _. }
  1-4: rewrite cache_map_einval by tauto; simpl;
       (split; [done|by intros ? ?%elem_of_nil]).
  destruct Hok as (c & f & l & -> & -> & -> & Hsz).
  destruct (cache_map_cases c f l sz o Hsz)
    as [H|[H|[H|[H|[H|[H|H]]]]]];
    last_conj H; rewrite H; simpl;
    (split; [done|]); intros l0 Hin%list_elem_of_In; simpl in Hin;
    intuition (try discriminate);
    match goal with
    | E : _ = sys_sem_wait _ |- _ => injection E as <-
    end; try done; by eexists _, _.
Qed.

(** X2.  With accepted arguments, the code [cache_map] returns tells the
    failing step apart: the lock when [sem_open] fails, the open when both
    opens fail, the resize when [ftruncate] fails on the new file, the map
    when [mmap] fails on either file, success otherwise; and it is never
    [CACHE_EINVAL]. *)
Theorem cache_map_failure_kinds (c : cache) (f l : string) (sz : Z) (o : os) :
  map_args_ok sz →
  let code := fst (fst (cache_map (Some c) (Some f) (Some l) sz o)) in
  let opened := open_ret o ≠ -1
                ∨ (open_creat_ret o ≠ -1 ∧ ftruncate_ret o ≠ -1) in
  (code = CACHE_LOCK_INIT_FAILED ↔ sem_open_ret o = SEM_FAILED)
  ∧ (code = CACHE_OPEN_FAILED
     ↔ sem_open_ret o ≠ SEM_FAILED ∧ open_ret o = -1
       ∧ open_creat_ret o = -1)
  ∧ (code = CACHE_FTRUNC_FAILED
     ↔ sem_open_ret o ≠ SEM_FAILED ∧ open_ret o = -1
       ∧ open_creat_ret o ≠ -1 ∧ ftruncate_ret o = -1)
  ∧ (code = CACHE_MAP_FAILED
     ↔ sem_open_ret o ≠ SEM_FAILED ∧ opened ∧ mmap_ret o = MAP_FAILED)
  ∧ (code = CACHE_OP_SUCCESS
     ↔ sem_open_ret o ≠ SEM_FAILED ∧ opened ∧ mmap_ret o ≠ MAP_FAILED)
  ∧ code ≠ CACHE_EINVAL.
Proof.
  intros Hsz code opened. subst code opened.
  assert (CACHE_LOCK_INIT_FAILED ≠ CACHE_OPEN_FAILED
          ∧ CACHE_LOCK_INIT_FAILED ≠ CACHE_FTRUNC_FAILED
          ∧ CACHE_LOCK_INIT_FAILED ≠ CACHE_MAP_FAILED
          ∧ CACHE_LOCK_INIT_FAILED ≠ CACHE_OP_SUCCESS
          ∧ CACHE_LOCK_INIT_FAILED ≠ CACHE_EINVAL
          ∧ CACHE_OPEN_FAILED ≠ CACHE_FTRUNC_FAILED
          ∧ CACHE_OPEN_FAILED ≠ CACHE_MAP_FAILED
          ∧ CACHE_OPEN_FAILED ≠ CACHE_OP_SUCCESS
          ∧ CACHE_OPEN_FAILED ≠ CACHE_EINVAL
          ∧ CACHE_FTRUNC_FAILED ≠ CACHE_MAP_FAILED
          ∧ CACHE_FTRUNC_FAILED ≠ CACHE_OP_SUCCESS
          ∧ CACHE_FTRUNC_FAILED ≠ CACHE_EINVAL
          ∧ CACHE_MAP_FAILED ≠ CACHE_OP_SUCCESS
          ∧ CACHE_MAP_FAILED ≠ CACHE_EINVAL
          ∧ CACHE_OP_SUCCESS ≠ CACHE_EINVAL)
    as (?&?&?&?&?&?&?&?&?&?&?&?&?&?&?) by (vm_compute; intuition discriminate).
  destruct (cache_map_cases c f l sz o Hsz)
    as [(Hs & Hcode & _)
       |[(Hs & Ho & Hm & Hcode & _)
        |[(Hs & Ho & Hm & Hcode & _)
         |[(Hs & Ho & Hc & Hcode & _)
          |[(Hs & Ho & Hc & Hf & Hcode & _)
           |[(Hs & Ho & Hc & Hf & Hm & Hcode & _)
            |(Hs & Ho & Hc & Hf & Hm & Hcode & _)]]]]]];
    rewrite Hcode; intuition congruence.
Qed.

(** X3.  With accepted arguments, [cache_map] closes the file descriptor
    it opened exactly when it fails after the open, on a failed resize or
    a failed map, and closes nothing on success, on a failed open or on a
    failed lock. *)
Theorem cache_map_closes_fd_on_failure (c : cache) (f l : string) (sz : Z)
    (o : os) :
  map_args_ok sz →
  let code := fst (fst (cache_map (Some c) (Some f) (Some l) sz o)) in
  let t := snd (fst (cache_map (Some c) (Some f) (Some l) sz o)) in
  (code = CACHE_FTRUNC_FAILED ∨ code = CACHE_MAP_FAILED →
   filter is_close t = [sys_close (opened_fd o)] ∧ opened_fd o ≠ -1)
  ∧ (code ≠ CACHE_FTRUNC_FAILED ∧ code ≠ CACHE_MAP_FAILED →
     filter is_close t = []).
Proof.
  intros Hsz code t. subst code t. unfold opened_fd.
  assert (CACHE_LOCK_INIT_FAILED ≠ CACHE_FTRUNC_FAILED
          ∧ CACHE_LOCK_INIT_FAILED ≠ CACHE_MAP_FAILED
          ∧ CACHE_OPEN_FAILED ≠ CACHE_FTRUNC_FAILED
          ∧ CACHE_OPEN_FAILED ≠ CACHE_MAP_FAILED
          ∧ CACHE_OP_SUCCESS ≠ CACHE_FTRUNC_FAILED
          ∧ CACHE_OP_SUCCESS ≠ CACHE_MAP_FAILED)
    as (?&?&?&?&?&?) by (vm_compute; intuition discriminate).
  assert (∀ x y : Z, x = y → (x =? y) = true) as Heq
    by (intros; by apply Z.eqb_eq).
  assert (∀ x y : Z, x ≠ y → (x =? y) = false) as Hne
    by (intros; by apply Z.eqb_neq).
  destruct (cache_map_cases c f l sz o Hsz)
    as [(Hs & Hcode & Ht)
       |[(Hs & Ho & Hm & Hcode & Ht)
        |[(Hs & Ho & Hm & Hcode & Ht)
         |[(Hs & Ho & Hc & Hcode & Ht)
          |[(Hs & Ho & Hc & Hf & Hcode & Ht)
           |[(Hs & Ho & Hc & Hf & Hm & Hcode & Ht)
            |(Hs & Ho & Hc & Hf & Hm & Hcode & Ht)]]]]]];
    rewrite Hcode, Ht;
    first [rewrite (Heq _ _ Ho)|rewrite (Hne _ _ Ho)|idtac];
    simpl; intuition congruence.
Qed.

(** What [cache_map] leaves in the handle when it creates the file. *)
Lemma cache_map_create_result (c0 c : cache) (f l : string) (sz : Z)
    (o : os) (t : list syscall) :
  open_ret o = -1 →
  cache_map (Some c0) (Some f) (Some l) sz o = (CACHE_OP_SUCCESS, t, Some c) →
  c = mk_cache (open_creat_ret o) (sem_open_ret o) sz
        (mk_mapping (mmap_ret o) (cachehdr.mk 0 0)
           (replicate (Z.to_nat (sz - sizeof_cachehdr)) x00))
  ∧ map_args_ok sz.
Proof.
  intros Hopen. unfold cache_map.
  destruct (Z.eqb_spec sz 0) as [|Hnz]; [intros [=]|].
  destruct (Z.eqb_spec (sz mod 4096) 0) as [Hmod|]; [|intros [=]].
  simpl. destruct (sem_open_ret o =? SEM_FAILED); [intros [=]|].
  rewrite Hopen. simpl.
  destruct (open_creat_ret o =? -1); [intros [=]|]. simpl.
  destruct (ftruncate_ret o =? -1); [intros [=]|].
  unfold mapped.
  destruct (Z.eqb_spec (mmap_ret o) MAP_FAILED) as [E|Hmap]; simpl.
  { rewrite E. simpl. intros [=]. }
  destruct (Z.eqb_spec (mmap_ret o) MAP_FAILED) as [E|_]; [done|].
  intros [= _ <-]. done.
Qed.

(** X4.  A [cache_map] that finds no backing file and succeeds makes
    exactly these calls: [sem_open], [sem_wait], the failed open, the
    creating open, [ftruncate] to the requested size, [mmap], [msync] and
    [sem_post].  The store it hands back is empty: [length] and [count] are
    0, every byte after the header is zero, no string is found in it and
    the traversal prints nothing. *)
Theorem cache_map_creates_empty_store (c0 c : cache) (f l : string) (sz : Z)
    (o : os) (t : list syscall) :
  0 ≤ sz < 2 ^ 64 → os_ok o sz → open_ret o = -1 →
  cache_map (Some c0) (Some f) (Some l) sz o = (CACHE_OP_SUCCESS, t, Some c) →
  t = [sys_sem_open l; sys_sem_wait (sem_open_ret o);
       sys_open f false; sys_open f true;
       sys_ftruncate (open_creat_ret o) sz; sys_mmap (open_creat_ret o) sz;
       sys_msync (mmap_ret o) sz; sys_sem_post (sem_open_ret o)]
  ∧ size c = sz ∧ fd c = open_creat_ret o ∧ lock c = sem_open_ret o
  ∧ hdr_length c = 0 ∧ hdr_count c = 0
  ∧ CACHE_DATA c = replicate (Z.to_nat (sz - sizeof_cachehdr)) x00
  ∧ (∀ item, cstring item →
       cache_contains (Some c) (Some item)
       = (Ret CACHE_CONTAINS_FAILED, Some c))
  ∧ cache_debug_traverse (Some c) = Ret [].
Proof.
  intros Hsz Hos Hopen Hmap.
  destruct (cache_map_create_inv _ _ _ _ _ _ _ Hsz Hos Hopen Hmap)
    as [Hinv Hsize].
  destruct (cache_map_create_result _ _ _ _ _ _ _ Hopen Hmap) as [Hc Hargs].
  assert (4096 ≤ sz) as Hbig.
  { destruct Hargs as [? Hmod]. pose proof (Z.div_mod sz 4096). lia. }
  assert (hdr_length c = 0) as Hlen by (by rewrite Hc).
  split.
  { destruct (cache_map_cases c0 f l sz o Hargs)
      as [(Hs & Hcode & Ht)
         |[(Hs & Ho & Hm & Hcode & Ht)
          |[(Hs & Ho & Hm & Hcode & Ht)
           |[(Hs & Ho & Hc' & Hcode & Ht)
            |[(Hs & Ho & Hc' & Hf & Hcode & Ht)
             |[(Hs & Ho & Hc' & Hf & Hm & Hcode & Ht)
              |(Hs & Ho & Hc' & Hf & Hm & Hcode & Ht)]]]]]];
      rewrite Hmap in Hcode, Ht; simpl in Hcode, Ht; try done;
      vm_compute in Hcode; discriminate. }
  split; [done|]. split; [by rewrite Hc|]. split; [by rewrite Hc|].
  split; [done|]. split; [by rewrite Hc|]. split; [by rewrite Hc|].
  split.
  - intros item Hi. rewrite (cache_contains_spec _ _ _ Hinv Hi).
    rewrite decide_False by apply not_elem_of_nil.
    rewrite decide_False; [done|]. unfold sizeof_cachehdr. lia.
  - rewrite (debug_traverse_spec _ _ Hinv).
    rewrite decide_False; [done|]. unfold sizeof_cachehdr. lia.
Qed.

(** What [cache_map] leaves in the handle when it finds the file. *)
Lemma cache_map_attach_result (c0 c' : cache) (f l : string) (sz : Z)
    (o : os) (t : list syscall) :
  open_ret o ≠ -1 →
  cache_map (Some c0) (Some f) (Some l) sz o = (CACHE_OP_SUCCESS, t, Some c') →
  c' = mk_cache (open_ret o) (sem_open_ret o) sz
         (mk_mapping (mmap_ret o) (file_header o)
            (take (Z.to_nat (sz - sizeof_cachehdr)) (file_data o)))
  ∧ map_args_ok sz.
Proof.
  intros Hopen. unfold cache_map.
  destruct (Z.eqb_spec sz 0) as [|Hnz]; [intros [=]|].
  destruct (Z.eqb_spec (sz mod 4096) 0) as [Hmod|]; [|intros [=]].
  simpl. destruct (sem_open_ret o =? SEM_FAILED); [intros [=]|].
  destruct (Z.eqb_spec (open_ret o) (-1)) as [|_]; [done|]. simpl.
  unfold mapped.
  destruct (Z.eqb_spec (mmap_ret o) MAP_FAILED) as [E|Hmap]; simpl.
  { rewrite E. simpl. intros [=]. }
  destruct (Z.eqb_spec (mmap_ret o) MAP_FAILED) as [E|_]; [done|].
  intros [= _ <-]. done.
Qed.


Lemma cache_map_attach_sees_store_aux (c c0 c' : cache)
    (log : list (list byte)) (f l : string) (o : os) (t : list syscall) :
  reachable c log → os_ok o (size c) → open_ret o ≠ -1 →
  file_header o = header (hdr c) → file_data o = data (hdr c) →
  cache_map (Some c0) (Some f) (Some l) (size c) o
    = (CACHE_OP_SUCCESS, t, Some c') →
  t = [sys_sem_open l; sys_sem_wait (sem_open_ret o); sys_open f false;
       sys_mmap (open_ret o) (size c); sys_sem_post (sem_open_ret o)]
  ∧ CACHE_DATA c' = CACHE_DATA c.
Proof.
  intros Hinv%reachable_inv Hos Hopen Hfh Hfd Hmap.
  destruct (cache_map_attach_result _ _ _ _ _ _ _ Hopen Hmap) as [Hc Hargs].
  split.
  { destruct (cache_map_cases c0 f l (size c) o Hargs)
      as [(Hs & Hcode & Ht)
         |[(Hs & Ho & Hm & Hcode & Ht)
          |[(Hs & Ho & Hm & Hcode & Ht)
           |[(Hs & Ho & Hc' & Hcode & Ht)
            |[(Hs & Ho & Hc' & Hf & Hcode & Ht)
             |[(Hs & Ho & Hc' & Hf & Hm & Hcode & Ht)
              |(Hs & Ho & Hc' & Hf & Hm & Hcode & Ht)]]]]]];
      rewrite Hmap in Hcode, Ht; simpl in Hcode, Ht; try done;
      vm_compute in Hcode; discriminate. }
  rewrite Hc. unfold CACHE_DATA. simpl. rewrite Hfd. apply take_ge.
  pose proof (inv_size _ _ Hinv) as Hsz. unfold CACHE_DATA in Hsz. lia.
Qed.

(** X5.  A second [cache_map] with the same size on the backing file of a
    reachable store never resizes or syncs the file, and the handle it
    returns shows the same header and the same bytes: every query gets the
    answer it gets through the first handle, and the traversal prints the
    same strings. *)
Theorem cache_map_attach_sees_store (c c0 c' : cache) (log : list (list byte))
    (f l : string) (o : os) (t : list syscall) :
  reachable c log → os_ok o (size c) → open_ret o ≠ -1 →
  file_header o = header (hdr c) → file_data o = data (hdr c) →
  cache_map (Some c0) (Some f) (Some l) (size c) o
    = (CACHE_OP_SUCCESS, t, Some c') →
  t = [sys_sem_open l; sys_sem_wait (sem_open_ret o); sys_open f false;
       sys_mmap (open_ret o) (size c); sys_sem_post (sem_open_ret o)]
  ∧ size c' = size c
  ∧ hdr_length c' = hdr_length c ∧ hdr_count c' = hdr_count c
  ∧ CACHE_DATA c' = CACHE_DATA c
  ∧ (∀ item, fst (cache_contains (Some c') (Some item))
             = fst (cache_contains (Some c) (Some item)))
  ∧ cache_debug_traverse (Some c') = cache_debug_traverse (Some c).
Proof.
  intros Hreach Hos Hopen Hfh Hfd Hmap.
  destruct (cache_map_attach_sees_store_aux _ _ _ _ _ _ _ _ Hreach Hos Hopen
              Hfh Hfd Hmap) as [Ht Hdata].
  destruct (cache_map_attach_result _ _ _ _ _ _ _ Hopen Hmap) as [Hc Hargs].
  split; [done|].
  split; [by rewrite Hc|].
  split; [rewrite Hc; unfold hdr_length; simpl; by rewrite Hfh|].
  split; [rewrite Hc; unfold hdr_count; simpl; by rewrite Hfh|].
  split; [done|]. split.
  - intros item. rewrite !cache_contains_fst. by rewrite Hdata.
  - unfold cache_debug_traverse, _cache_lock. by rewrite Hdata.
Qed.

(** ** [cache_unmap] *)

(** X6.  [cache_unmap] on a handle always makes its three releases, in
    the order [sem_close], [munmap], [close], on the semaphore, the mapping
    and the descriptor of the handle.  Its result has the bit of a release
    set exactly when that release answered -1, no other bit, and is
    [CACHE_OP_SUCCESS] exactly when none failed. *)
Theorem cache_unmap_reports_each_failure (c : cache)
    (sem_close_ret munmap_ret close_ret : Z) :
  let r := cache_unmap (Some c) sem_close_ret munmap_ret close_ret in
  snd r = [sys_sem_close (lock c); sys_munmap (addr (hdr c)) (size c);
           sys_close (fd c)]
  ∧ (Z.land (fst r) CACHE_SEMCLOSE_FAILED ≠ 0 ↔ sem_close_ret = -1)
  ∧ (Z.land (fst r) CACHE_MUNMAP_FAILED ≠ 0 ↔ munmap_ret = -1)
  ∧ (Z.land (fst r) CACHE_CLOSE_FAILED ≠ 0 ↔ close_ret = -1)
  ∧ Z.land (fst r)
      (Z.lnot (Z.lor CACHE_SEMCLOSE_FAILED
                 (Z.lor CACHE_MUNMAP_FAILED CACHE_CLOSE_FAILED))) = 0
  ∧ (fst r = CACHE_OP_SUCCESS
     ↔ sem_close_ret ≠ -1 ∧ munmap_ret ≠ -1 ∧ close_ret ≠ -1).
Proof.
  intros r. subst r. unfold cache_unmap.
  destruct (Z.eqb_spec sem_close_ret (-1)), (Z.eqb_spec munmap_ret (-1)),
    (Z.eqb_spec close_ret (-1)); vm_compute; intuition congruence.
Qed.

(** ** Inserts on a reachable store *)

(** An insert, plain or if-absent, leaves the store as it was or appends
    the string. *)
Lemma insert_step_cases (c c' : cache) (log : list (list byte))
    (s : list byte) (r : outcome Z) :
  cache_inv c log → arg_ok c s →
  cache_insert (Some c) (Some s) = (r, Some c')
  ∨ cache_notcontains_insert (Some c) (Some s) = (r, Some c') →
  (c' = c ∧ appended r s = [])
  ∨ (c' = after_insert c s ∧ r = Ret CACHE_INSERTION_SUCCESS
     ∧ s ≠ [] ∧ needed c s ≤ size c).
Proof.
  intros Hinv Harg Hop.
  assert (cache_insert (Some c) (Some s) = (r, Some c') →
          (c' = c ∧ appended r s = [])
          ∨ (c' = after_insert c s ∧ r = Ret CACHE_INSERTION_SUCCESS
             ∧ s ≠ [] ∧ needed c s ≤ size c)) as Hins.
  { rewrite (cache_insert_spec _ _ _ Hinv Harg).
    destruct (decide _) as [[Hne Hfit]|_]; intros [= <- <-];
      [by right|by left]. }
  destruct Hop as [Hop|Hop]; [by apply Hins|].
  rewrite (cache_notcontains_insert_spec _ _ _ Hinv Harg) in Hop.
  destruct (decide (s ∈ log)); [injection Hop as <- <-; by left|].
  destruct (decide _); [injection Hop as <- <-; by left|].
  by apply Hins.
Qed.

(** X7.  On a reachable store with a free byte after the items,
    [cache_notcontains_insert] tells three cases apart: it answers
    [CACHE_CONTAINS_SUCCESS] exactly when the string is stored,
    [CACHE_INSERTION_SUCCESS] exactly when it is not stored, not empty and
    fits, and [CACHE_INSERTION_FAILED] exactly when it is not stored and is
    empty or does not fit; the store changes in the second case only, by
    the append of the string at the end. *)
Theorem notcontains_insert_outcomes (c c' : cache) (log : list (list byte))
    (s : list byte) (r : outcome Z) :
  reachable c log → arg_ok c s →
  hdr_length c < size c - sizeof_cachehdr →
  cache_notcontains_insert (Some c) (Some s) = (r, Some c') →
  (r = Ret CACHE_CONTAINS_SUCCESS ↔ s ∈ log)
  ∧ (r = Ret CACHE_INSERTION_SUCCESS
     ↔ (s ∉ log) ∧ s ≠ [] ∧ needed c s ≤ size c)
  ∧ (r = Ret CACHE_INSERTION_FAILED
     ↔ (s ∉ log) ∧ (s = [] ∨ size c < needed c s))
  ∧ (r = Ret CACHE_CONTAINS_SUCCESS ∨ r = Ret CACHE_INSERTION_SUCCESS
     ∨ r = Ret CACHE_INSERTION_FAILED)
  ∧ (r = Ret CACHE_INSERTION_SUCCESS →
     c' = after_insert c s ∧ stored_items (CACHE_DATA c') = log ++ [s])
  ∧ (r ≠ Ret CACHE_INSERTION_SUCCESS → c' = c).
Proof.
  intros Hreach Harg Hroom Hop.
  pose proof (reachable_inv _ _ Hreach) as Hinv.
  assert (CACHE_CONTAINS_SUCCESS ≠ CACHE_INSERTION_SUCCESS
          ∧ CACHE_CONTAINS_SUCCESS ≠ CACHE_INSERTION_FAILED
          ∧ CACHE_INSERTION_SUCCESS ≠ CACHE_INSERTION_FAILED)
    as (? & ? & ?) by (vm_compute; intuition discriminate).
  rewrite (cache_notcontains_insert_spec _ _ _ Hinv Harg) in Hop.
  destruct (decide (s ∈ log)) as [Hin|Hnot].
  { injection Hop as <- <-.
    repeat split; try done; try tauto; try congruence. }
  rewrite decide_False in Hop by lia.
  rewrite (cache_insert_spec _ _ _ Hinv Harg) in Hop.
  destruct (decide _) as [[Hne Hfit]|Hrej]; injection Hop as <- <-.
  - pose proof (after_insert_inv _ _ _ Hinv Harg Hne Hfit) as Hinv'.
    repeat split; try done; try tauto; try congruence.
    + intros [_ [?|?]]; [done|lia].
    + rewrite (inv_data _ _ Hinv').
      apply stored_items_layout, (inv_items _ _ Hinv').
  - repeat split; try done; try tauto; try congruence.
    destruct (decide (s = [])); [by left|right].
    destruct (Z.lt_ge_cases (size c) (needed c s)); [done|].
    exfalso. apply Hrej. split; [done|lia].
Qed.

(** X8.  The store is append-only.  Across a [cache_insert] or a
    [cache_notcontains_insert] on a reachable store the region keeps its
    size, [length] and [count] do not decrease, the bytes below the old
    [length] stay as they are, the stored strings of before are a prefix of
    the stored strings of after, and a string that was found is still
    found. *)
Theorem store_is_append_only (c c' : cache) (log : list (list byte))
    (s : list byte) (r : outcome Z) :
  reachable c log → arg_ok c s →
  cache_insert (Some c) (Some s) = (r, Some c')
  ∨ cache_notcontains_insert (Some c) (Some s) = (r, Some c') →
  size c' = size c
  ∧ hdr_length c ≤ hdr_length c' ∧ hdr_count c ≤ hdr_count c'
  ∧ (∀ i : nat, Z.of_nat i < hdr_length c →
                CACHE_DATA c' !! i = CACHE_DATA c !! i)
  ∧ stored_items (CACHE_DATA c) `prefix_of` stored_items (CACHE_DATA c')
  ∧ (∀ item, cstring item →
       fst (cache_contains (Some c) (Some item)) = Ret CACHE_CONTAINS_SUCCESS →
       fst (cache_contains (Some c') (Some item))
       = Ret CACHE_CONTAINS_SUCCESS).
Proof.
  intros Hinv%reachable_inv Harg Hop.
  destruct (insert_step_cases _ _ _ _ _ Hinv Harg Hop)
    as [[-> _]|(-> & _ & Hne & Hfit)].
  { repeat split; try done; lia. }
  pose proof (after_insert_inv _ _ _ Hinv Harg Hne Hfit) as Hinv'.
  pose proof (inv_length_bound _ _ Hinv) as HL.
  pose proof (strlen_nonneg s) as Hs0.
  pose proof (inv_size _ _ Hinv) as Hsz.
  assert (stored_items (CACHE_DATA c) = log) as Hlog.
  { rewrite (inv_data _ _ Hinv).
    apply stored_items_layout, (inv_items _ _ Hinv). }
  assert (stored_items (CACHE_DATA (after_insert c s)) = log ++ [s]) as Hlog'.
  { rewrite (inv_data _ _ Hinv').
    apply stored_items_layout, (inv_items _ _ Hinv'). }
  split; [done|].
  split; [change (hdr_length (after_insert c s))
            with (hdr_length c + strlen s + 1); lia|].
  split; [change (hdr_count (after_insert c s)) with (hdr_count c + 1); lia|].
  split.
  { intros i Hi. apply patch_outside; [|lia].
    unfold needed, strlen, sizeof_cachehdr in *. lia. }
  split; [rewrite Hlog, Hlog'; by apply prefix_app_r|].
  intros item Hi. rewrite !cache_contains_fst.
  intros Hfound.
  apply contains_loop_spec; [done|lia|].
  apply contains_loop_spec in Hfound; [|done|lia].
  rewrite Hlog in Hfound. rewrite Hlog'. apply elem_of_app. by left.
Qed.

(** X9.  [cache_insert] does not look for the string: on a reachable
    store, inserting a stored string once more succeeds whenever it fits,
    [count] grows by 1 and the string is then stored twice. *)
Theorem insert_stores_duplicates (c : cache) (log : list (list byte))
    (s : list byte) :
  reachable c log → arg_ok c s → s ∈ log → needed c s ≤ size c →
  cache_insert (Some c) (Some s)
  = (Ret CACHE_INSERTION_SUCCESS, Some (after_insert c s))
  ∧ hdr_count (after_insert c s) = hdr_count c + 1
  ∧ stored_items (CACHE_DATA (after_insert c s)) = log ++ [s]
  ∧ ¬ NoDup (stored_items (CACHE_DATA (after_insert c s))).
Proof.
  intros Hinv%reachable_inv Harg Hin Hfit.
  assert (s ≠ []) as Hne.
  { pose proof (inv_items _ _ Hinv) as Hit. rewrite Forall_forall in Hit.
    by destruct (Hit _ Hin). }
  pose proof (after_insert_inv _ _ _ Hinv Harg Hne Hfit) as Hinv'.
  assert (stored_items (CACHE_DATA (after_insert c s)) = log ++ [s]) as Hlog'.
  { rewrite (inv_data _ _ Hinv').
    apply stored_items_layout, (inv_items _ _ Hinv'). }
  split.
  { rewrite (cache_insert_spec _ _ _ Hinv Harg). by rewrite decide_True. }
  split; [done|]. split; [done|].
  rewrite Hlog'. intros Hnd. apply NoDup_app in Hnd as (_ & Hdis & _).
  apply (Hdis s Hin). by left.
Qed.

(** X10.  [cache_notcontains_insert] keeps a store free of duplicates: if
    the stored strings of a reachable store are pairwise distinct, they
    still are after the call, and then [count] is the number of distinct
    strings stored. *)
Theorem notcontains_insert_keeps_unique (c c' : cache)
    (log : list (list byte)) (s : list byte) (r : outcome Z) :
  reachable c log → arg_ok c s → NoDup log →
  cache_notcontains_insert (Some c) (Some s) = (r, Some c') →
  reachable c' (log ++ appended r s)
  ∧ NoDup (log ++ appended r s)
  ∧ stored_items (CACHE_DATA c') = log ++ appended r s
  ∧ NoDup (stored_items (CACHE_DATA c'))
  ∧ hdr_count c' = Z.of_nat (length (stored_items (CACHE_DATA c'))).
Proof.
  intros Hreach Harg Hnd Hop.
  pose proof (reach_notcontains_insert _ _ _ _ _ Hreach Harg Hop) as Hreach'.
  pose proof (reachable_inv _ _ Hreach) as Hinv.
  pose proof (reachable_inv _ _ Hreach') as Hinv'.
  assert (stored_items (CACHE_DATA c') = log ++ appended r s) as Hlog'.
  { rewrite (inv_data _ _ Hinv').
    apply stored_items_layout, (inv_items _ _ Hinv'). }
  assert (NoDup (log ++ appended r s)) as Hnd'.
  { rewrite (cache_notcontains_insert_spec _ _ _ Hinv Harg) in Hop.
    destruct (decide (s ∈ log)) as [Hin|Hnot].
    { injection Hop as <- _. simpl. by rewrite app_nil_r. }
    destruct (decide _).
    { injection Hop as <- _. simpl. by rewrite app_nil_r. }
    destruct r as [v| |]; simpl; rewrite ?app_nil_r; try done.
    destruct (v =? CACHE_INSERTION_SUCCESS); rewrite ?app_nil_r; [|done].
    apply NoDup_app. split; [done|]. split; [|apply NoDup_singleton].
    intros x Hx Hx'. apply list_elem_of_singleton in Hx' as ->. done. }
  split; [done|]. split; [done|]. split; [done|].
  split; [by rewrite Hlog'|].
  rewrite Hlog'. apply (inv_count _ _ Hinv').
Qed.

(** X11.  Inserting a string changes the answer for no other string: on
    a reachable store, after a [cache_insert] or a
    [cache_notcontains_insert] of [s], a string other than [s] is found
    exactly when it was found before; and when a byte is left after the
    items, [cache_contains] returns for it what it returned before. *)
Theorem insert_leaves_other_strings (c c' : cache) (log : list (list byte))
    (s item : list byte) (r : outcome Z) :
  reachable c log → arg_ok c s → cstring item → item ≠ s →
  cache_insert (Some c) (Some s) = (r, Some c')
  ∨ cache_notcontains_insert (Some c) (Some s) = (r, Some c') →
  (fst (cache_contains (Some c') (Some item)) = Ret CACHE_CONTAINS_SUCCESS
   ↔ fst (cache_contains (Some c) (Some item)) = Ret CACHE_CONTAINS_SUCCESS)
  ∧ (hdr_length c' < size c' - sizeof_cachehdr →
     fst (cache_contains (Some c') (Some item))
     = fst (cache_contains (Some c) (Some item))).
Proof.
  intros Hinv%reachable_inv Harg Hi Hne Hop.
  destruct (insert_step_cases _ _ _ _ _ Hinv Harg Hop)
    as [[-> _]|(-> & _ & Hs & Hfit)]; [done|].
  pose proof (after_insert_inv _ _ _ Hinv Harg Hs Hfit) as Hinv'.
  pose proof (strlen_nonneg s) as Hs0.
  rewrite (cache_contains_spec _ _ _ Hinv Hi).
  rewrite (cache_contains_spec _ _ _ Hinv' Hi).
  assert (item ∈ log ++ [s] ↔ item ∈ log) as Hiff.
  { rewrite elem_of_app, list_elem_of_singleton. tauto. }
  change (size (after_insert c s)) with (size c).
  change (hdr_length (after_insert c s)) with (hdr_length c + strlen s + 1).
  destruct (decide (item ∈ log)) as [Hin|Hnot].
  - rewrite decide_True by (by apply Hiff). done.
  - rewrite (decide_False (P := item ∈ log ++ [s])) by (by rewrite Hiff).
    split.
    + destruct (decide (hdr_length c + strlen s + 1 = _)),
        (decide (hdr_length c = _)); simpl; split; intros [=]; done.
    + intros Hroom. rewrite decide_False by lia.
      rewrite decide_False; [done|]. lia.
Qed.

(** ** The two scans agree *)

(** On any memory, a traversal that ends has printed the stored items, and
    the scan of [cache_contains] with the same fuel finds exactly them. *)
Lemma scans_agree (fuel : nat) (m item : list byte)
    (out : list (list byte)) :
  cstring item → (length m < fuel)%nat →
  cache_debug_traverse_loop fuel m = Ret out →
  out = stored_items m
  ∧ _cache_contains_loop fuel m item
    = Ret (if decide (item ∈ out) then CACHE_CONTAINS_SUCCESS
           else CACHE_CONTAINS_FAILED).
Proof.
  intros Hi. revert m out.
  induction fuel as [|fuel IH]; intros m out Hlen; [lia|].
  destruct m as [|b m0]; [done|].
  rewrite traverse_loop_step, contains_loop_step.
  destruct (is_nul b) eqn:Eb.
  { intros [= <-]. split; [unfold stored_items; simpl; by rewrite Eb|].
    by rewrite decide_False by apply not_elem_of_nil. }
  destruct (mem_split (b :: m0)) as [Hm|(s & m' & Hm & Hs)].
  { by rewrite (mem_strlen_none _ Hm). }
  assert (s ≠ []) as Hs0.
  { intros ->. simpl in Hm. injection Hm as -> _. done. }
  assert (length m' < fuel)%nat as Hl.
  { apply (f_equal length) in Hm. rewrite length_app in Hm.
    simpl in Hm, Hlen. lia. }
  rewrite Hm. rewrite (mem_strlen_cstring _ _ Hs), drop_item.
  rewrite take_app_length.
  destruct (cache_debug_traverse_loop fuel m') as [out'| |] eqn:Ht;
    [|done..].
  intros [= <-]. destruct (IH m' out' Hl Ht) as [-> Hc].
  rewrite (stored_items_cons _ _ Hs Hs0). split; [done|].
  destruct (decide (s = item)) as [->|Hne].
  - rewrite (mem_streq_same _ _ Hs). rewrite decide_True; [done|by left].
  - rewrite (mem_streq_diff _ _ _ Hs Hi Hne). rewrite Hc.
    destruct (decide (item ∈ stored_items m')) as [Hin|Hnot].
    + rewrite decide_True; [done|by right].
    + rewrite decide_False; [done|].
      intros [?|?]%elem_of_cons; [by subst|done].
Qed.

(** X12.  [cache_debug_traverse] and [cache_contains] agree on every
    store, reachable or not: when the traversal ends it has printed the
    items stored before the first empty run, in order, and
    [cache_contains] answers found for the printed strings and not-found
    for every other string. *)
Theorem traverse_lists_what_contains_finds (c : cache)
    (out : list (list byte)) (item : list byte) :
  cstring item →
  cache_debug_traverse (Some c) = Ret out →
  out = stored_items (CACHE_DATA c)
  ∧ cache_contains (Some c) (Some item)
    = (Ret (if decide (item ∈ out) then CACHE_CONTAINS_SUCCESS
            else CACHE_CONTAINS_FAILED), Some c).
Proof.
  intros Hi Ht. unfold cache_debug_traverse, _cache_lock in Ht.
  destruct (scans_agree _ _ item _ Hi (Nat.lt_succ_diag_r _) Ht) as [-> Hc].
  split; [done|].
  unfold cache_contains, _cache_contains, _cache_lock, _cache_unlock.
  by rewrite Hc.
Qed.

(** ** Filling the store *)

Lemma inserted_cases (c : cache) (log : list (list byte)) (s : list byte) :
  cache_inv c log → arg_ok c s →
  (needed c s ≤ size c ∧ s ≠ [] ∧ inserted c s = after_insert c s)
  ∨ ((size c < needed c s ∨ s = []) ∧ inserted c s = c).
Proof.
  intros Hinv Harg. unfold inserted.
  rewrite (cache_insert_spec _ _ _ Hinv Harg).
  destruct (decide _) as [[Hne Hfit]|Hrej]; [by left|right].
  split; [|done]. destruct (decide (s = [])); [by right|left].
  destruct (Z.lt_ge_cases (size c) (needed c s)); [done|].
  exfalso. apply Hrej. split; [done|lia].
Qed.

(** X13.  [n] inserts of one non-empty string on a reachable store: as
    many succeed as copies of the string with its terminator fit in the
    bytes that are free, and no more.  [count] grows by the smaller of [n]
    and [free / (strlen + 1)], and [length] by that many times
    [strlen + 1]. *)
Theorem repeated_insert_fills_to_capacity (n : nat) (c : cache)
    (log : list (list byte)) (s : list byte) :
  reachable c log → arg_ok c s → s ≠ [] →
  let free := size c - sizeof_cachehdr - hdr_length c in
  let accepted := Z.min (Z.of_nat n) (free / (strlen s + 1)) in
  hdr_count (insert_n n c s) = hdr_count c + accepted
  ∧ hdr_length (insert_n n c s) = hdr_length c + accepted * (strlen s + 1)
  ∧ size (insert_n n c s) = size c.
Proof.
  intros Hinv%reachable_inv Harg Hne. revert c log Hinv Harg.
  assert (0 < strlen s + 1) as Hk by (pose proof (strlen_nonneg s); lia).
  induction n as [|n IH]; intros c log Hinv Harg free fin.
  - subst fin. pose proof (inv_length_bound _ _ Hinv).
    assert (0 ≤ free / (strlen s + 1)) by (apply Z.div_pos; subst free; lia).
    simpl. rewrite Z.min_l by lia. lia.
  - simpl insert_n.
    pose proof (inv_length_bound _ _ Hinv) as HL.
    destruct (inserted_cases _ _ _ Hinv Harg)
      as [(Hfit & _ & ->)|([Hrej|?] & ->)]; [| |done].
    + pose proof (after_insert_inv _ _ _ Hinv Harg Hne Hfit) as Hinv'.
      assert (arg_ok (after_insert c s) s) as Harg' by done.
      destruct (IH _ _ Hinv' Harg') as (Hc & Hl & Hs).
      change (size (after_insert c s)) with (size c) in *.
      change (hdr_length (after_insert c s))
        with (hdr_length c + strlen s + 1) in *.
      change (hdr_count (after_insert c s)) with (hdr_count c + 1) in *.
      assert (free / (strlen s + 1)
              = (size c - sizeof_cachehdr - (hdr_length c + strlen s + 1))
                / (strlen s + 1) + 1) as Hq.
      { rewrite <- Z.div_add by lia. f_equal. subst free. lia. }
      subst fin. rewrite Hc, Hl, Hs, Hq.
      set (q := (size c - sizeof_cachehdr - (hdr_length c + strlen s + 1))
                / (strlen s + 1)).
      replace (Z.of_nat (S n) `min` (q + 1)) with (Z.of_nat n `min` q + 1)
        by lia.
      split; [lia|]. split; [lia|done].
    + destruct (IH _ _ Hinv Harg) as (Hc & Hl & Hs).
      assert (free / (strlen s + 1) = 0) as Hq.
      { apply Z.div_small. subst free. unfold needed in Hrej. lia. }
      subst fin. fold free in Hc, Hl. rewrite Hq in *.
      rewrite Z.min_r in * by lia. done.
Qed.

(** ** The callers: cachereader.c and roafteriniter.c *)

(** What a successful [cache_map] leaves in the handle. *)
Lemma cache_map_success_handle (c0 c : cache) (f l : string) (sz : Z)
    (o : os) (t : list syscall) :
  cache_map (Some c0) (Some f) (Some l) sz o = (CACHE_OP_SUCCESS, t, Some c) →
  fd c = opened_fd o ∧ lock c = sem_open_ret o ∧ addr (hdr c) = mmap_ret o
  ∧ size c = sz ∧ filter is_close t = [] ∧ map_args_ok sz.
Proof.
  intros Hmap. unfold opened_fd.
  destruct (Z.eqb_spec (open_ret o) (-1)) as [Ho|Ho].
  - destruct (cache_map_create_result _ _ _ _ _ _ _ Ho Hmap) as [-> Hargs].
    repeat split; try done; try apply Hargs.
    destruct (cache_map_cases c0 f l sz o Hargs)
      as [(Hs & Hcode & Ht)
         |[(Hs & Ho' & Hm & Hcode & Ht)
          |[(Hs & Ho' & Hm & Hcode & Ht)
           |[(Hs & Ho' & Hc' & Hcode & Ht)
            |[(Hs & Ho' & Hc' & Hf & Hcode & Ht)
             |[(Hs & Ho' & Hc' & Hf & Hm & Hcode & Ht)
              |(Hs & Ho' & Hc' & Hf & Hm & Hcode & Ht)]]]]]];
      rewrite Hmap in Hcode, Ht; simpl in Hcode, Ht; try done;
      try (vm_compute in Hcode; discriminate); by rewrite Ht.
  - destruct (cache_map_attach_result _ _ _ _ _ _ _ Ho Hmap) as [-> Hargs].
    repeat split; try done; try apply Hargs.
    destruct (cache_map_cases c0 f l sz o Hargs)
      as [(Hs & Hcode & Ht)
         |[(Hs & Ho' & Hm & Hcode & Ht)
          |[(Hs & Ho' & Hm & Hcode & Ht)
           |[(Hs & Ho' & Hc' & Hcode & Ht)
            |[(Hs & Ho' & Hc' & Hf & Hcode & Ht)
             |[(Hs & Ho' & Hc' & Hf & Hm & Hcode & Ht)
              |(Hs & Ho' & Hc' & Hf & Hm & Hcode & Ht)]]]]]];
      rewrite Hmap in Hcode, Ht; simpl in Hcode, Ht; try done;
      try (vm_compute in Hcode; discriminate); by rewrite Ht.
Qed.

Lemma cache_map_some (c0 : cache) (f l : option string) (sz : Z) (o : os) :
  ∃ c, snd (cache_map (Some c0) f l sz o) = Some c.
Proof.
  unfold cache_map. destruct f, l; try by eexists.
  repeat case_match; by eexists.
Qed.

Lemma failed_flag_cases (code : Z) :
  (code = CACHE_OP_SUCCESS ∧ failed_flag code = 0)
  ∨ (code ≠ CACHE_OP_SUCCESS ∧ failed_flag code = 1).
Proof.
  unfold failed_flag. destruct (Z.eqb_spec code CACHE_OP_SUCCESS);
    [by left|by right].
Qed.


(** X15.  The error report of [cachereader] does not tell failures
    apart.  With any number of arguments other than two it writes the
    usage line and returns -1 without a system call.  With two arguments,
    whenever [sem_open] fails, or both opens fail, or the resize of the new
    file fails, or [mmap] fails, it prints no string, writes
    ["cache_map failed with 1"], the truth value of the comparison and not
    the code of [cache_map], and exits with -1 without unmapping. *)
Theorem cachereader_reports_failures (argv : list string) (o : os)
    (sem_close_ret munmap_ret close_ret : Z) :
  (length argv ≠ 3%nat →
   cachereader_main argv o sem_close_ret munmap_ret close_ret
   = Ret (mk_run (-1) [] [usage_line] []))
  ∧ (∀ prog f l,
       argv = [prog; f; l] →
       sem_open_ret o = SEM_FAILED
       ∨ (open_ret o = -1 ∧ open_creat_ret o = -1)
       ∨ (open_ret o = -1 ∧ ftruncate_ret o = -1)
       ∨ mmap_ret o = MAP_FAILED →
       ∃ t, cachereader_main argv o sem_close_ret munmap_ret close_ret
            = Ret (mk_run (-1) [] [map_failed_line 1] t)
            ∧ (sys_munmap (mmap_ret o) (50 * 0x1000) ∉ t)
            ∧ (sys_sem_close (sem_open_ret o) ∉ t)).
Proof.
  split.
  - intros Hlen. unfold cachereader_main.
    destruct (Z.eqb_spec (Z.of_nat (length argv)) 3) as [E|_]; [lia|done].
  - intros prog f l -> Hfail. unfold cachereader_main.
    change (Z.of_nat (length [prog; f; l]) =? 3) with true. cbn [negb].
    change ([prog; f; l] !! 1%nat) with (Some f).
    change ([prog; f; l] !! 2%nat) with (Some l).
    assert (map_args_ok (50 * 0x1000)) as Hargs by done.
    pose proof (cache_map_cases zeroed_handle f l _ o Hargs) as Hcases.
    destruct (cache_map (Some zeroed_handle) (Some f) (Some l)
                (50 * 4096) o) as [[code t] cachep] eqn:Hmap.
    cbn [fst snd] in Hcases.
    assert (code ≠ CACHE_OP_SUCCESS
            ∧ (sys_munmap (mmap_ret o) (50 * 4096) ∉ t)
            ∧ (sys_sem_close (sem_open_ret o) ∉ t)) as (Hcode & Hnm & Hnc).
    { destruct Hcases
        as [(Hs & Hcode & Ht)
           |[(Hs & Ho & Hm & Hcode & Ht)
            |[(Hs & Ho & Hm & Hcode & Ht)
             |[(Hs & Ho & Hc' & Hcode & Ht)
              |[(Hs & Ho & Hc' & Hf & Hcode & Ht)
               |[(Hs & Ho & Hc' & Hf & Hm & Hcode & Ht)
                |(Hs & Ho & Hc' & Hf & Hm & Hcode & Ht)]]]]]];
        subst code t;
        (split; [try (vm_compute; discriminate); exfalso; tauto|]);
        split; intros Hin%list_elem_of_In; simpl in Hin;
        intuition discriminate. }
    destruct (failed_flag_cases code) as [[? _]|[_ ->]]; [done|].
    cbn [negb Z.eqb]. by eexists.
Qed.

Lemma map_or_die_returns (c c' : cache) (f l : string) (pages : Z) (o : os)
    (line : Z) (t : list syscall) :
  map_or_die c f l pages o line = Returns c' t →
  cache_map (Some c) (Some f) (Some l) (pages * 0x1000) o
  = (CACHE_OP_SUCCESS, t, Some c').
Proof.
  unfold map_or_die.
  destruct (cache_map_some c (Some f) (Some l) (pages * 4096) o) as [c1 Hc1].
  destruct (cache_map (Some c) (Some f) (Some l) (pages * 4096) o)
    as [[code t1] cachep]. simpl in Hc1. subst cachep.
  destruct (failed_flag_cases code) as [[-> ->]|[_ ->]]; [|done].
  cbn [negb Z.eqb default]. by intros [= <- <-].
Qed.

(** X16.  What [rai_map_cache] acquires, [rai_callback_finish]
    releases.  When [rai_map_cache] returns, it has mapped [interesting]
    and, in stage 1, [checked], in stage 2, [results], and has closed no
    descriptor; [rai_callback_finish] then closes the semaphore, unmaps the
    region and closes the descriptor of exactly these two caches, with the
    handle, address, size (30 pages, 60 for [results]) and descriptor the
    maps obtained, and leaves the third cache alone. *)
Theorem rai_finish_releases_what_was_mapped (p p' : plugin)
    (o_int o_chk o_fin : os) (t : list syscall)
    (a_int a_chk a_fin : release) :
  rai_map_cache p o_int o_chk o_fin = Returns p' t →
  rai_callback_finish p' a_int a_chk a_fin
  = releases_of o_int (STAGE1_PG_COUNT * 0x1000)
    ++ (if stage2 p then releases_of o_fin (STAGE2_PG_COUNT * 0x1000)
        else releases_of o_chk (STAGE1_PG_COUNT * 0x1000))
  ∧ filter is_close t = []
  ∧ stage2 p' = stage2 p
  ∧ (if stage2 p then checked p' = checked p else results p' = results p).
Proof.
  unfold rai_map_cache, exec_bind.
  destruct (map_or_die (interesting p) _ _ _ o_int _) as [c1 t1| ] eqn:H1;
    [|done].
  apply map_or_die_returns in H1 as Hm1.
  destruct (cache_map_success_handle _ _ _ _ _ _ _ Hm1)
    as (Hfd1 & Hl1 & Ha1 & Hs1 & Hc1 & _).
  destruct (stage2 p) eqn:Hst; cbn [negb].
  - destruct (map_or_die (results p) _ _ _ o_fin _) as [c3 t3| ] eqn:H3;
      [|done].
    apply map_or_die_returns in H3 as Hm3.
    destruct (cache_map_success_handle _ _ _ _ _ _ _ Hm3)
      as (Hfd3 & Hl3 & Ha3 & Hs3 & Hc3 & _).
    intros [= <- <-]. unfold rai_callback_finish, cache_unmap, releases_of.
    cbn [stage2 negb interesting results checked snd].
    rewrite Hfd1, Hl1, Ha1, Hs1, Hfd3, Hl3, Ha3, Hs3.
    rewrite !app_nil_r, !filter_app, Hc1, Hc3. done.
  - destruct (map_or_die (checked p) _ _ _ o_chk _) as [c2 t2| ] eqn:H2;
      [|done].
    apply map_or_die_returns in H2 as Hm2.
    destruct (cache_map_success_handle _ _ _ _ _ _ _ Hm2)
      as (Hfd2 & Hl2 & Ha2 & Hs2 & Hc2 & _).
    intros [= <- <-]. unfold rai_callback_finish, cache_unmap, releases_of.
    cbn [stage2 negb interesting results checked snd].
    rewrite Hfd1, Hl1, Ha1, Hs1, Hfd2, Hl2, Ha2, Hs2.
    rewrite !app_nil_r, !filter_app, Hc1, Hc2. done.
Qed.

(** ** The further properties on the test stores *)

Lemma cache_map_releases_lock_witness :
  last (snd (fst (cache_map (Some zeroed_handle) (Some TESTCACHEFILE)
                    (Some TESTLOCKNAME) 0x1000 os_fresh)))
  = Some (sys_sem_post 0x5000).
Proof.
  apply (cache_map_releases_lock (Some zeroed_handle) (Some TESTCACHEFILE)
           (Some TESTLOCKNAME) 0x1000 os_fresh).
  vm_compute. apply list_elem_of_In. simpl. tauto.
Defined.

Lemma cache_map_failure_kinds_witness :
  fst (fst (cache_map (Some zeroed_handle) (Some TESTCACHEFILE)
              (Some TESTLOCKNAME) 0x1000 os_ftruncate_fails))
  = CACHE_FTRUNC_FAILED.
Proof.
  destruct (cache_map_failure_kinds zeroed_handle TESTCACHEFILE TESTLOCKNAME
              0x1000 os_ftruncate_fails) as (_ & _ & Hft & _).
  - split; [discriminate|reflexivity].
  - apply Hft. vm_compute. repeat split; discriminate.
Defined.

Lemma cache_map_closes_fd_on_failure_witness :
  filter is_close
    (snd (fst (cache_map (Some zeroed_handle) (Some TESTCACHEFILE)
                 (Some TESTLOCKNAME) 0x1000 os_ftruncate_fails)))
  = [sys_close 3].
Proof.
  destruct (cache_map_closes_fd_on_failure zeroed_handle TESTCACHEFILE
              TESTLOCKNAME 0x1000 os_ftruncate_fails) as [Hclose _].
  - split; [discriminate|reflexivity].
  - apply Hclose. left. reflexivity.
Defined.

Lemma cache_map_creates_empty_store_witness :
  cache_contains (Some test_store) (Some AAA)
  = (Ret CACHE_CONTAINS_FAILED, Some test_store)
  ∧ cache_debug_traverse (Some test_store) = Ret [].
Proof.
  destruct (cache_map_creates_empty_store zeroed_handle test_store
              TESTCACHEFILE TESTLOCKNAME 0x1000 os_fresh
              (snd (fst (cache_map (Some zeroed_handle) (Some TESTCACHEFILE)
                           (Some TESTLOCKNAME) 0x1000 os_fresh))))
    as (_ & _ & _ & _ & _ & _ & _ & Hc & Ht).
  - lia.
  - right. vm_compute. done.
  - reflexivity.
  - reflexivity.
  - split; [|exact Ht]. apply Hc. by apply cstring_replicate.
Defined.

Lemma cache_map_attach_sees_store_witness :
  fst (cache_contains (Some (attached (inserted test_store AAA))) (Some AAA))
  = fst (cache_contains (Some (inserted test_store AAA)) (Some AAA))
  ∧ hdr_count (attached (inserted test_store AAA)) = 1.
Proof.
  destruct (cache_map_attach_sees_store (inserted test_store AAA)
              zeroed_handle (attached (inserted test_store AAA)) [AAA]
              TESTCACHEFILE TESTLOCKNAME
              (os_attach (inserted test_store AAA))
              (snd (fst (cache_map (Some zeroed_handle) (Some TESTCACHEFILE)
                           (Some TESTLOCKNAME)
                           (size (inserted test_store AAA))
                           (os_attach (inserted test_store AAA))))))
    as (_ & _ & _ & Hcount & _ & Hsame & _).
  - exact store_AAA_reachable.
  - right. vm_compute. done.
  - discriminate.
  - reflexivity.
  - reflexivity.
  - vm_compute. reflexivity.
  - split; [apply Hsame|]. rewrite Hcount. reflexivity.
Defined.

Lemma notcontains_insert_outcomes_witness :
  stored_items (CACHE_DATA (inserted test_store AAA)) = [AAA].
Proof.
  destruct (notcontains_insert_outcomes test_store (inserted test_store AAA)
              [] AAA (Ret CACHE_INSERTION_SUCCESS))
    as (_ & _ & _ & _ & Hins & _).
  - exact test_store_reachable.
  - apply arg_ok_test; [done|vm_compute; done].
  - vm_compute. reflexivity.
  - vm_compute. reflexivity.
  - by destruct (Hins eq_refl) as [_ ->].
Defined.

Lemma store_is_append_only_witness :
  hdr_count test_store ≤ hdr_count (inserted test_store AAA)
  ∧ stored_items (CACHE_DATA test_store)
    `prefix_of` stored_items (CACHE_DATA (inserted test_store AAA)).
Proof.
  destruct (store_is_append_only test_store (inserted test_store AAA) [] AAA
              (Ret CACHE_INSERTION_SUCCESS))
    as (_ & _ & Hc & _ & Hp & _).
  - exact test_store_reachable.
  - apply arg_ok_test; [done|vm_compute; done].
  - left. vm_compute. reflexivity.
  - split; [exact Hc|exact Hp].
Defined.

Lemma insert_stores_duplicates_witness :
  hdr_count (after_insert (inserted test_store AAA) AAA)
  = hdr_count (inserted test_store AAA) + 1
  ∧ stored_items (CACHE_DATA (after_insert (inserted test_store AAA) AAA))
    = [AAA; AAA].
Proof.
  destruct (insert_stores_duplicates (inserted test_store AAA) [AAA] AAA)
    as (_ & Hc & Hs & _).
  - exact store_AAA_reachable.
  - apply arg_ok_test; [done|vm_compute; done].
  - by left.
  - vm_compute. discriminate.
  - split; [exact Hc|exact Hs].
Defined.

Lemma notcontains_insert_keeps_unique_witness :
  NoDup (stored_items (CACHE_DATA (inserted test_store AAA))).
Proof.
  destruct (notcontains_insert_keeps_unique test_store
              (inserted test_store AAA) [] AAA (Ret CACHE_INSERTION_SUCCESS))
    as (_ & _ & _ & Hnd & _).
  - exact test_store_reachable.
  - apply arg_ok_test; [done|vm_compute; done].
  - constructor.
  - vm_compute. reflexivity.
  - exact Hnd.
Defined.

Lemma insert_leaves_other_strings_witness :
  fst (cache_contains (Some (inserted test_store AAA)) (Some (bytes_B 1)))
  = fst (cache_contains (Some test_store) (Some (bytes_B 1))).
Proof.
  destruct (insert_leaves_other_strings test_store (inserted test_store AAA)
              [] AAA (bytes_B 1) (Ret CACHE_INSERTION_SUCCESS))
    as [_ Hsame].
  - exact test_store_reachable.
  - apply arg_ok_test; [done|vm_compute; done].
  - by apply cstring_replicate.
  - discriminate.
  - left. vm_compute. reflexivity.
  - apply Hsame. vm_compute. reflexivity.
Defined.

Lemma traverse_lists_what_contains_finds_witness :
  cache_contains (Some (inserted test_store AAA)) (Some (bytes_B 1))
  = (Ret CACHE_CONTAINS_FAILED, Some (inserted test_store AAA)).
Proof.
  destruct (traverse_lists_what_contains_finds (inserted test_store AAA)
              [AAA] (bytes_B 1)) as [_ Hc].
  - by apply cstring_replicate.
  - vm_compute. reflexivity.
  - rewrite Hc. rewrite decide_False; [done|].
    intros [E|E]%elem_of_cons; [discriminate|by apply elem_of_nil in E].
Defined.

Lemma repeated_insert_fills_to_capacity_witness :
  hdr_count (insert_n 1021 test_store AAA)
  = hdr_count test_store
    + Z.min 1021 ((size test_store - sizeof_cachehdr - hdr_length test_store)
                  / (strlen AAA + 1))
  ∧ Z.min 1021 ((size test_store - sizeof_cachehdr - hdr_length test_store)
                / (strlen AAA + 1)) = 1020.
Proof.
  split; [|vm_compute; reflexivity].
  apply (repeated_insert_fills_to_capacity 1021 test_store [] AAA).
  - exact test_store_reachable.
  - apply arg_ok_test; [done|vm_compute; done].
  - discriminate.
Defined.

(** The result of a [cache_map] that creates the file, when every call
    succeeds. *)
Lemma cache_map_create_ok (c0 : cache) (f l : string) (sz : Z) (o : os) :
  map_args_ok sz → sem_open_ret o ≠ SEM_FAILED → open_ret o = -1 →
  open_creat_ret o ≠ -1 → ftruncate_ret o ≠ -1 → mmap_ret o ≠ MAP_FAILED →
  cache_map (Some c0) (Some f) (Some l) sz o
  = (CACHE_OP_SUCCESS,
     [sys_sem_open l; sys_sem_wait (sem_open_ret o);
      sys_open f false; sys_open f true;
      sys_ftruncate (open_creat_ret o) sz; sys_mmap (open_creat_ret o) sz;
      sys_msync (mmap_ret o) sz; sys_sem_post (sem_open_ret o)],
     Some (mk_cache (open_creat_ret o) (sem_open_ret o) sz
             (mk_mapping (mmap_ret o) (cachehdr.mk 0 0)
                (replicate (Z.to_nat (sz - sizeof_cachehdr)) x00)))).
Proof.
  intros [Hnz Hmod] Hs Ho Hc Hf Hm. unfold cache_map.
  assert (∀ x y : Z, x = y → (x =? y) = true) as Heq
    by (intros; by apply Z.eqb_eq).
  assert (∀ x y : Z, x ≠ y → (x =? y) = false) as Hne
    by (intros; by apply Z.eqb_neq).
  rewrite (Hne _ _ Hnz), (Heq _ _ Hmod).
  cbn [orb negb set_size set_lock set_fd set_hdr lock fd size hdr].
  rewrite (Hne _ _ Hs), (Heq _ _ Ho). cbn [negb].
  rewrite (Hne _ _ Hc). cbn [negb]. rewrite (Hne _ _ Hf).
  unfold mapped. rewrite (Hne _ _ Hm). cbn [addr hdr fd lock size].
  rewrite (Hne _ _ Hm). reflexivity.
Qed.

Lemma os_fresh_creates :
  sem_open_ret os_fresh ≠ SEM_FAILED ∧ open_ret os_fresh = -1
  ∧ open_creat_ret os_fresh ≠ -1 ∧ ftruncate_ret os_fresh ≠ -1
  ∧ mmap_ret os_fresh ≠ MAP_FAILED.
Proof. vm_compute. repeat split; discriminate. Qed.







Lemma cachereader_reports_failures_witness :
  ∃ t, cachereader_main ["cachereader"; TESTCACHEFILE; TESTLOCKNAME]%string
         os_ftruncate_fails 0 0 0
       = Ret (mk_run (-1) [] [map_failed_line 1] t).
Proof.
  destruct (cachereader_reports_failures
              ["cachereader"; TESTCACHEFILE; TESTLOCKNAME]%string
              os_ftruncate_fails 0 0 0) as [_ Hfail].
  destruct (Hfail "cachereader"%string TESTCACHEFILE TESTLOCKNAME eq_refl)
    as (t & Hrun & _).
  - right. right. left. split; reflexivity.
  - by exists t.
Defined.

Lemma map_or_die_create_ok (c0 : cache) (f l : string) (pages : Z) (o : os)
    (line : Z) :
  map_args_ok (pages * 0x1000) →
  sem_open_ret o ≠ SEM_FAILED → open_ret o = -1 →
  open_creat_ret o ≠ -1 → ftruncate_ret o ≠ -1 → mmap_ret o ≠ MAP_FAILED →
  ∃ c t, map_or_die c0 f l pages o line = Returns c t.
Proof.
  intros Hargs Hs Ho Hc Hf Hm. unfold map_or_die.
  rewrite (cache_map_create_ok c0 f l _ o Hargs Hs Ho Hc Hf Hm).
  change (failed_flag CACHE_OP_SUCCESS) with 0. cbn [negb Z.eqb].
  by eexists _, _.
Qed.

Lemma plugin_stage1_maps :
  rai_map_cache (plugin_start false) os_fresh os_fresh os_fresh
  = Returns (plugin_mapped false os_fresh os_fresh os_fresh)
      (plugin_map_calls false os_fresh os_fresh os_fresh).
Proof.
  destruct os_fresh_creates as (Hs & Ho & Hc & Hf & Hm).
  unfold plugin_mapped, plugin_map_calls.
  destruct (rai_map_cache (plugin_start false) os_fresh os_fresh os_fresh)
    as [p t|ret line t] eqn:E; [done|].
  exfalso. revert E. unfold rai_map_cache, exec_bind.
  cbn [plugin_start interesting checked results stage2 negb].
  destruct (map_or_die_create_ok zeroed_handle STAGE1_INT "/int"
              STAGE1_PG_COUNT os_fresh 128) as (c1 & t1 & ->); try done.
Qed.

Lemma rai_finish_releases_what_was_mapped_witness :
  rai_callback_finish (plugin_mapped false os_fresh os_fresh os_fresh)
    (mk_release 0 0 0) (mk_release 0 0 0) (mk_release 0 0 0)
  = releases_of os_fresh (STAGE1_PG_COUNT * 0x1000)
    ++ releases_of os_fresh (STAGE1_PG_COUNT * 0x1000).
Proof.
  apply (rai_finish_releases_what_was_mapped (plugin_start false)
           (plugin_mapped false os_fresh os_fresh os_fresh)
           os_fresh os_fresh os_fresh
           (plugin_map_calls false os_fresh os_fresh os_fresh)).
  exact plugin_stage1_maps.
Defined.
